(** * UK sponsor lookup: the matcher, the deduplicator and the URL extractor

    A shallow embedding of [sponsor_lookup.py] (class [FastSponsorLookup]) and
    of [deduplicate_results] from [api.py], with the properties of the
    registry search, of the deduplication and of the company-name extraction
    from URLs.

    Conventions of the embedding.
    - A Python [str] is a Rocq [string]; the embedding covers ASCII text
      (code points below 128), on which [\w] is [[A-Za-z0-9_]], [\s] and
      [str.isspace] are the code points 9-13 and 28-32, and [lower], [title]
      and [isalpha] act on the Latin letters only.
    - A score is a Python [float] obtained from a decimal literal or from
      one division of two small integers, and is only ever compared; it is
      embedded as the rational number it denotes ([Q]): the literal [0.9] is
      nine tenths, and the rounding of the quotient is not modelled.
    - [name_to_sponsors] is a Python [dict], iterated in insertion order: an
      association list. [word_index], [seen] and the token sets are hash
      sets whose iteration order is unspecified: [gmap] and [gset], iterated
      through [elements].
    - A Python exception is a value [Raises e] of the [outcome] monad.
    - The body of a request is the value that the JSON parser builds:
      [json], whose [float] is a [spec_float]. *)

From Stdlib Require Import Ascii String QArith Sorted SpecFloat.
From stdpp Require Import gmap strings list.

Local Open Scope string_scope.
Local Open Scope list_scope.
Local Open Scope nat_scope.

(** ** Python strings *)

Module PyStr.

Definition code (c : ascii) : N := N_of_ascii c.

Definition is_upper (c : ascii) : bool := ((65 <=? code c) && (code c <=? 90))%N.
Definition is_lower (c : ascii) : bool := ((97 <=? code c) && (code c <=? 122))%N.
Definition is_digit (c : ascii) : bool := ((48 <=? code c) && (code c <=? 57))%N.

(** [c.isalpha()] *)
Definition isalpha (c : ascii) : bool := is_upper c || is_lower c.

(** the class [\w] *)
Definition is_word (c : ascii) : bool := isalpha c || is_digit c || (code c =? 95)%N.

(** the class [\s], which is also [c.isspace()] *)
Definition isspace (c : ascii) : bool :=
  (((9 <=? code c) && (code c <=? 13)) || ((28 <=? code c) && (code c <=? 32)))%N.

Definition lower_char (c : ascii) : ascii :=
  if is_upper c then ascii_of_N (code c + 32) else c.

Definition upper_char (c : ascii) : ascii :=
  if is_lower c then ascii_of_N (code c - 32) else c.

Definition chars (s : string) : list ascii := list_ascii_of_string s.
Definition str (l : list ascii) : string := string_of_list_ascii l.

(** [s.lower()] *)
Definition lower (s : string) : string := str (map lower_char (chars s)).

(** [s.lstrip()], [s.rstrip()] and [s.strip()] for a set of characters [p] *)
Fixpoint lstrip_with (p : ascii → bool) (l : list ascii) : list ascii :=
  match l with
  | [] => []
  | c :: l' => if p c then lstrip_with p l' else l
  end.

Fixpoint rstrip_with (p : ascii → bool) (l : list ascii) : list ascii :=
  match l with
  | [] => []
  | c :: l' =>
      match rstrip_with p l' with
      | [] => if p c then [] else [c]
      | r => c :: r
      end
  end.

Definition strip_with (p : ascii → bool) (l : list ascii) : list ascii :=
  rstrip_with p (lstrip_with p l).

Definition strip (s : string) : string := str (strip_with isspace (chars s)).

Definition is_quote (c : ascii) : bool := (code c =? 34)%N.

(** [s.strip(q)] where [q] is the double-quote character *)
Definition strip_quotes (s : string) : string := str (strip_with is_quote (chars s)).

(** [s.split()]: the maximal runs of non-whitespace characters *)
Fixpoint split_from (cur : list ascii) (l : list ascii) : list string :=
  match l with
  | [] => match cur with [] => [] | _ => [str (rev cur)] end
  | c :: l' =>
      if isspace c
      then match cur with
           | [] => split_from [] l'
           | _ => str (rev cur) :: split_from [] l'
           end
      else split_from (c :: cur) l'
  end.

Definition split (s : string) : list string := split_from [] (chars s).

(** [prefix_of_chars a b]: the characters [b] start with [a] *)
Fixpoint prefix_of_chars (a b : list ascii) : bool :=
  match a, b with
  | [], _ => true
  | x :: a', y :: b' => bool_decide (x = y) && prefix_of_chars a' b'
  | _ :: _, [] => false
  end.

(** [s.startswith(pre)] *)
Definition startswith (s pre : string) : bool := prefix_of_chars (chars pre) (chars s).

(** [a in b] on strings: [a] occurs in [b] as a contiguous substring *)
Fixpoint occurs_in_chars (a b : list ascii) : bool :=
  prefix_of_chars a b ||
  match b with
  | [] => false
  | _ :: b' => occurs_in_chars a b'
  end.

(** [needle in hay] *)
Definition contains (hay needle : string) : bool := occurs_in_chars (chars needle) (chars hay).

Definition len (s : string) : nat := length (chars s).

End PyStr.

(** ** The normalizer *)

(** [re.sub(r'[^\w\s]', '', t)] *)
Definition drop_punctuation (l : list ascii) : list ascii :=
  filter (λ c, PyStr.is_word c || PyStr.isspace c = true) l.

(** [re.sub(r'\s+', ' ', t)]; [in_run] tells that the previous character
    belonged to a run of whitespace that has already been replaced *)
Fixpoint collapse_spaces (in_run : bool) (l : list ascii) : list ascii :=
  match l with
  | [] => []
  | c :: l' =>
      if PyStr.isspace c
      then (if in_run then collapse_spaces true l' else " "%char :: collapse_spaces true l')
      else c :: collapse_spaces false l'
  end.

Definition _normalize (text : string) : string :=
  PyStr.str
    (PyStr.strip_with PyStr.isspace
       (collapse_spaces false
          (drop_punctuation (map PyStr.lower_char (PyStr.chars text))))).

(** ** Exceptions *)

Inductive exn : Type := KeyError | ValueError | AttributeError | TypeError.

Inductive outcome (A : Type) : Type :=
  | Ok (a : A)
  | Raises (e : exn).
Arguments Ok {A} a.
Arguments Raises {A} e.

Global Instance outcome_ret : MRet outcome := @Ok.

Global Instance outcome_bind : MBind outcome := λ A B f m,
  match m with
  | Ok a => f a
  | Raises e => Raises e
  end.

(** ** Insertion-ordered dictionaries with string keys *)

Module PyDict.

Definition t (V : Type) : Type := list (string * V).

(** [d.get(k)] *)
Fixpoint get {V : Type} (d : t V) (k : string) : option V :=
  match d with
  | [] => None
  | (k', v) :: d' => if decide (k' = k) then Some v else get d' k
  end.

(** [k in d] *)
Definition has {V : Type} (d : t V) (k : string) : bool :=
  match get d k with Some _ => true | None => false end.

(** [d[k] = v]: an existing key keeps its place, a new key goes last *)
Fixpoint set {V : Type} (d : t V) (k : string) (v : V) : t V :=
  match d with
  | [] => [(k, v)]
  | (k', v') :: d' => if decide (k' = k) then (k', v) :: d' else (k', v') :: set d' k v
  end.

(** [d[k]], which raises [KeyError] on a missing key *)
Definition item {V : Type} (d : t V) (k : string) : outcome V :=
  match get d k with
  | Some v => Ok v
  | None => Raises KeyError
  end.

Definition keys {V : Type} (d : t V) : list string := map fst d.
Definition values {V : Type} (d : t V) : list V := map snd d.

End PyDict.

(** ** The registry and its loader *)

Record Sponsor : Type := mkSponsor {
  name : string;
  city : string;
  county : string;
  rating : string;
  route : string
}.

Global Instance Sponsor_eq_dec : EqDecision Sponsor.
Proof. solve_decision. Defined.

(** A row of the CSV file as [csv.DictReader] yields it, one field per
    column read by the loader. *)
Record Row : Type := mkRow {
  organisation_name : string;
  town_city : string;
  county_column : string;
  type_and_rating : string;
  route_column : string
}.

Record Registry : Type := mkRegistry {
  sponsors : list Sponsor;
  name_to_sponsors : PyDict.t (list Sponsor);
  word_index : gmap string (gset string)
}.

(** [row.get(col, '').strip().strip(q)] *)
Definition field (raw : string) : string := PyStr.strip_quotes (PyStr.strip raw).

(** The body of the inner loop of [_load_data]: index one word. *)
Definition index_word (normalized : string) (wi : gmap string (gset string)) (word : string)
  : gmap string (gset string) :=
  if decide (2 < PyStr.len word)
  then
    let wi1 := if decide (is_Some (wi !! word)) then wi else <[word := ∅]> wi in
    <[word := {[normalized]} ∪ default ∅ (wi1 !! word)]> wi1
  else wi.

(** The indexing by normalized full name in [_load_data]: the bucket of
    [normalized] is created when missing and the record appended to it. *)
Definition file_under (nts : PyDict.t (list Sponsor)) (normalized : string) (sponsor : Sponsor)
  : PyDict.t (list Sponsor) :=
  let nts1 := if PyDict.has nts normalized then nts else PyDict.set nts normalized [] in
  PyDict.set nts1 normalized (default [] (PyDict.get nts1 normalized) ++ [sponsor]).

(** The body of the loop of [_load_data]: one row of the file. *)
Definition load_row (reg : Registry) (row : Row) : Registry :=
  let org_name := field (organisation_name row) in
  if decide (org_name = "") then reg
  else
    let sponsor := {| name := org_name;
                      city := field (town_city row);
                      county := field (county_column row);
                      rating := field (type_and_rating row);
                      route := field (route_column row) |} in
    let normalized := _normalize org_name in
    let words := PyStr.split normalized in
    {| sponsors := sponsors reg ++ [sponsor];
       name_to_sponsors := file_under (name_to_sponsors reg) normalized sponsor;
       word_index := fold_left (index_word normalized) words (word_index reg) |}.

Definition empty_registry : Registry :=
  {| sponsors := []; name_to_sponsors := []; word_index := ∅ |}.

(** [_load_data] on the rows of the file. *)
Definition _load_data (rows : list Row) : Registry := fold_left load_row rows empty_registry.

(** ** The matcher *)

Definition Match : Type := Sponsor * Q.

Definition score_of (m : Match) : Q := snd m.

(** [a >= b] on scores *)
Definition geq (a b : Q) : bool := Qle_bool b a.

(** [max(a, b)] of two scores: [b] when [b > a], else [a] *)
Definition py_max (a b : Q) : Q := if Qle_bool b a then a else b.

Definition word_set (s : string) : gset string := list_to_set (PyStr.split s).

Definition _simple_similarity (a b : string) : Q :=
  let a_words := word_set (_normalize a) in
  let b_words := word_set (_normalize b) in
  if decide (a_words = ∅ ∨ b_words = ∅) then 0%Q
  else
    let intersection := size (a_words ∩ b_words) in
    let union := size (a_words ∪ b_words) in
    if decide (0 < union) then Z.of_nat intersection # Pos.of_nat union else 0%Q.

(** Stage 1: the exact match. *)
Definition exact_step (st : list Match * gset string) (sponsor : Sponsor)
  : list Match * gset string :=
  let '(results, seen) := st in
  let key := name sponsor in
  if decide (key ∈ seen) then (results, seen)
  else (results ++ [(sponsor, 1%Q)], {[key]} ∪ seen).

Definition exact_stage (reg : Registry) (query_norm : string) : list Match * gset string :=
  match PyDict.get (name_to_sponsors reg) query_norm with
  | Some bucket => fold_left exact_step bucket ([], ∅)
  | None => ([], ∅)
  end.

(** Stage 2: the substring matches, over the items of [name_to_sponsors]. *)
Definition substring_step (query_norm : string) (st : list Match * gset string)
    (item : string * list Sponsor) : list Match * gset string :=
  let '(results, seen) := st in
  let '(nm, sps) := item in
  if decide (nm ∈ seen) then (results, seen)
  else if PyStr.contains nm query_norm
  then (results ++ map (λ sponsor, (sponsor, 0.9%Q)) sps, {[nm]} ∪ seen)
  else if bool_decide (5 < PyStr.len query_norm) && PyStr.contains query_norm nm
  then (results ++ map (λ sponsor, (sponsor, 0.85%Q)) sps, {[nm]} ∪ seen)
  else (results, seen).

Definition substring_stage (reg : Registry) (query_norm : string)
    (st : list Match * gset string) : list Match * gset string :=
  fold_left (substring_step query_norm) (name_to_sponsors reg) st.

(** Stage 3: the candidate names, from the word index. *)
Definition candidate_step (reg : Registry) (cands : gset string) (word : string) : gset string :=
  match word_index reg !! word with
  | Some names => cands ∪ names
  | None => cands
  end.

Definition candidate_stage (reg : Registry) (query_words : list string) : gset string :=
  fold_left (candidate_step reg) query_words ∅.

(** Stage 4: the score of a candidate, the Jaccard similarity with its two
    boosts. *)
Definition boost_pair (qt : string) (score : Q) (nt : string) : Q :=
  let score1 :=
    if PyStr.startswith nt qt || PyStr.startswith qt nt then py_max score 0.7%Q else score in
  if bool_decide (3 ≤ PyStr.len qt)%nat && PyStr.contains nt qt
  then py_max score1 0.75%Q else score1.

Definition boost_token (name_tokens : list string) (score : Q) (qt : string) : Q :=
  fold_left (boost_pair qt) name_tokens score.

Definition candidate_score (query_norm nm : string) : Q :=
  let score := _simple_similarity query_norm nm in
  let query_tokens := elements (word_set query_norm) in
  let name_tokens := elements (word_set nm) in
  fold_left (boost_token name_tokens) query_tokens score.

Definition scoring_step (reg : Registry) (query_norm : string) (threshold : Q)
    (st : list Match * gset string) (nm : string) : outcome (list Match * gset string) :=
  let '(results, seen) := st in
  if decide (nm ∈ seen) then Ok (results, seen)
  else
    let score := candidate_score query_norm nm in
    if geq score threshold
    then
      sps ← PyDict.item (name_to_sponsors reg) nm;
      Ok (results ++ map (λ sponsor, (sponsor, score)) sps, {[nm]} ∪ seen)
    else Ok (results, seen).

Fixpoint scoring_stage (reg : Registry) (query_norm : string) (threshold : Q)
    (cands : list string) (st : list Match * gset string)
  : outcome (list Match * gset string) :=
  match cands with
  | [] => Ok st
  | nm :: cands' =>
      st' ← scoring_step reg query_norm threshold st nm;
      scoring_stage reg query_norm threshold cands' st'
  end.

(** [results.sort(key=lambda x: x[1], reverse=True)]: the stable sort by
    decreasing score. *)
Fixpoint insert_desc (x : Match) (l : list Match) : list Match :=
  match l with
  | [] => [x]
  | y :: l' => if Qle_bool (score_of y) (score_of x) then x :: l else y :: insert_desc x l'
  end.

Definition sort_desc (l : list Match) : list Match := foldr insert_desc [] l.

(** [l[:n]] for a Python integer [n] *)
Definition slice_to {A : Type} (n : Z) (l : list A) : list A :=
  if decide (0 ≤ n)%Z then take (Z.to_nat n) l
  else take (length l - Z.to_nat (- n)) l.

(** [search] up to the sort: the ranked list that is then cut. *)
Definition ranked (reg : Registry) (query : string) (threshold : Q) : outcome (list Match) :=
  let query_norm := _normalize query in
  let query_words := filter (λ w, 2 < PyStr.len w) (PyStr.split query_norm) in
  let st1 := exact_stage reg query_norm in
  let st2 := substring_stage reg query_norm st1 in
  let candidate_names := candidate_stage reg query_words in
  st4 ← scoring_stage reg query_norm threshold (elements candidate_names) st2;
  Ok (sort_desc (fst st4)).

Definition search (reg : Registry) (query : string) (threshold : Q) (max_results : Z)
  : outcome (list Match) :=
  results ← ranked reg query threshold;
  Ok (slice_to max_results results).

Definition is_sponsor (reg : Registry) (company_name : string) (threshold : Q)
  : outcome (option Sponsor) :=
  results ← search reg company_name threshold 1;
  match results with
  | top :: _ => if geq (snd top) threshold then Ok (Some (fst top)) else Ok None
  | [] => Ok None
  end.

(** *** The registry of the end-to-end scenario *)

Definition barclays_row : Row :=
  mkRow "Barclays Bank PLC" "London" "" "A-Rating" "Skilled Worker".

Definition barclays : Sponsor :=
  mkSponsor "Barclays Bank PLC" "London" "" "A-Rating" "Skilled Worker".


(** *** The registries of the examples *)

(** One company at two branches. *)
Definition acme_london_row : Row := mkRow "Acme Ltd" "London" "" "A-Rating" "Skilled Worker".
Definition acme_leeds_row : Row := mkRow "Acme Ltd" "Leeds" "" "A-Rating" "Skilled Worker".
Definition acme_london : Sponsor := mkSponsor "Acme Ltd" "London" "" "A-Rating" "Skilled Worker".
Definition acme_leeds : Sponsor := mkSponsor "Acme Ltd" "Leeds" "" "A-Rating" "Skilled Worker".

(** Two companies with a common first word. *)
Definition barclays_capital_row : Row :=
  mkRow "Barclays Capital" "London" "" "A-Rating" "Skilled Worker".
Definition barclays_capital : Sponsor :=
  mkSponsor "Barclays Capital" "London" "" "A-Rating" "Skilled Worker".

(** ** The deduplicator ([api.py]) *)

(** The body of the loop of [deduplicate_results]; [seen] maps a company
    name to the pair kept for it. *)
Definition dedup_step (seen : PyDict.t Match) (m : Match) : PyDict.t Match :=
  let '(sponsor, score) := m in
  let nm := name sponsor in
  match PyDict.get seen nm with
  | None => PyDict.set seen nm (sponsor, score)
  | Some kept =>
      if negb (Qle_bool score (snd kept)) then PyDict.set seen nm (sponsor, score) else seen
  end.

Definition deduplicate_results (results : list Match) : list Match :=
  sort_desc (PyDict.values (fold_left dedup_step results [])).

(** ** Regular expressions, as far as the URL patterns need them *)

Module Re.

Inductive regex : Type :=
  | Lit (s : string)            (* literal characters *)
  | LitI (s : string)           (* the same under [re.IGNORECASE] *)
  | NotCharPlus (c : ascii)     (* [[^c]+], greedy *)
  | Seq (r1 r2 : regex)
  | Alt (r1 r2 : regex)         (* [r1|r2] *)
  | Opt (r : regex)             (* [r?], greedy *)
  | Group (r : regex)           (* the capturing group 1 *)
  | Bol                         (* [^] *)
  | Eol                         (* [$] *)
  | WordB.                      (* [\b] *)

Definition is_word_at (c : option ascii) : bool :=
  match c with Some c => PyStr.is_word c | None => false end.

Fixpoint prefix_nocase (a b : list ascii) : bool :=
  match a, b with
  | [], _ => true
  | x :: a', y :: b' =>
      bool_decide (PyStr.lower_char x = PyStr.lower_char y) && prefix_nocase a' b'
  | _ :: _, [] => false
  end.

(** The character before the position reached after consuming [n]
    characters of [s], when [prev] is the one before [s]. *)
Definition prev_after (prev : option ascii) (s : list ascii) (n : nat) : option ascii :=
  match n with
  | 0 => prev
  | S n' => match s !! n' with Some c => Some c | None => prev end
  end.

(** The length of the longest prefix of [s] free of [c]. *)
Fixpoint run_length (c : ascii) (s : list ascii) : nat :=
  match s with
  | [] => 0
  | x :: s' => if decide (x = c) then 0 else S (run_length c s')
  end.

Section matcher.
Context {R : Type}.

(** The position of the matcher: the previous character (none at the
    start of the subject) and the characters still to read. The
    continuation receives the position reached and the text captured by
    the group, and fails to ask for the next alternative. *)
Definition cont : Type := option ascii → list ascii → option (list ascii) → option R.

(** The lengths [n], [n-1], ..., 1 in turn. *)
Fixpoint backtrack (prev : option ascii) (s : list ascii) (cap : option (list ascii))
    (k : cont) (n : nat) : option R :=
  match n with
  | 0 => None
  | S n' =>
      match k (prev_after prev s n) (drop n s) cap with
      | Some x => Some x
      | None => backtrack prev s cap k n'
      end
  end.

Fixpoint run (r : regex) (prev : option ascii) (s : list ascii)
    (cap : option (list ascii)) (k : cont) : option R :=
  match r with
  | Lit l =>
      let l := PyStr.chars l in
      if PyStr.prefix_of_chars l s
      then k (prev_after prev s (length l)) (drop (length l) s) cap
      else None
  | LitI l =>
      let l := PyStr.chars l in
      if prefix_nocase l s
      then k (prev_after prev s (length l)) (drop (length l) s) cap
      else None
  | NotCharPlus c =>
      backtrack prev s cap k (run_length c s)
  | Seq r1 r2 => run r1 prev s cap (λ prev' s' cap', run r2 prev' s' cap' k)
  | Alt r1 r2 =>
      match run r1 prev s cap k with
      | Some x => Some x
      | None => run r2 prev s cap k
      end
  | Opt r1 =>
      match run r1 prev s cap k with
      | Some x => Some x
      | None => k prev s cap
      end
  | Group r1 =>
      run r1 prev s cap (λ prev' s' _, k prev' s' (Some (take (length s - length s') s)))
  | Bol => match prev with None => k prev s cap | Some _ => None end
  | Eol =>
      if bool_decide (s = [] ∨ s = ["010"%char]) then k prev s cap else None
  | WordB =>
      if xorb (is_word_at prev) (is_word_at (head s)) then k prev s cap else None
  end.
End matcher.

(** A match object, reduced to what the callers read: [group(1)] and the
    characters after the match. *)
Record match_object : Type := mkMatch {
  group1 : option (list ascii);
  after : list ascii
}.

Definition match_here (r : regex) (prev : option ascii) (s : list ascii) : option match_object :=
  run r prev s None (λ _ s' cap, Some (mkMatch cap s')).

(** [re.match(r, s)] *)
Definition rmatch (r : regex) (s : string) : option match_object :=
  match_here r None (PyStr.chars s).

(** [re.search(r, s)]: the leftmost start at which [r] matches *)
Fixpoint search_from (r : regex) (prev : option ascii) (s : list ascii) : option match_object :=
  match match_here r prev s with
  | Some m => Some m
  | None =>
      match s with
      | [] => None
      | c :: s' => search_from r (Some c) s'
      end
  end.

Definition search (r : regex) (s : string) : option match_object :=
  search_from r None (PyStr.chars s).

(** [re.sub(r, '', s)] for a pattern that matches no empty string: [skip]
    counts the characters of the current match still to drop. *)
Fixpoint sub_from (r : regex) (skip : nat) (prev : option ascii) (s : list ascii) : list ascii :=
  match s with
  | [] => []
  | c :: s' =>
      match skip with
      | S n => sub_from r n (Some c) s'
      | 0 =>
          match match_here r prev s with
          | Some m =>
              match length s - length (after m) with
              | 0 => c :: sub_from r 0 (Some c) s'
              | S n => sub_from r n (Some c) s'
              end
          | None => c :: sub_from r 0 (Some c) s'
          end
      end
  end.

Definition sub_empty (r : regex) (s : string) : string :=
  PyStr.str (sub_from r 0 None (PyStr.chars s)).

End Re.

(** ** The URL extractor *)

(** [s.title()]: a letter is put in upper case after a character that is
    not a letter and in lower case after a letter *)
Fixpoint title_from (prev_cased : bool) (l : list ascii) : list ascii :=
  match l with
  | [] => []
  | c :: l' =>
      if PyStr.isalpha c
      then (if prev_cased then PyStr.lower_char c else PyStr.upper_char c) :: title_from true l'
      else c :: title_from false l'
  end.

Definition title (s : string) : string := PyStr.str (title_from false (PyStr.chars s)).

(** [s.replace('-', ' ')] *)
Definition hyphens_to_spaces (s : string) : string :=
  PyStr.str (map (λ c, if decide (c = "-"%char) then " "%char else c) (PyStr.chars s)).

Definition noise_words : list string :=
  ["Jobs"; "Careers"; "Ltd"; "Limited"; "Inc"; "Corp"; "Corporation"; "PLC"; "LLC"].

(** [re.sub(r'\b' + word + r'\b', '', name, flags=re.IGNORECASE)] *)
Definition strip_noise_word (nm word : string) : string :=
  Re.sub_empty (Re.Seq Re.WordB (Re.Seq (Re.LitI word) Re.WordB)) nm.

Definition _clean_company_name (nm : string) : option string :=
  if decide (nm = "") then None
  else
    let nm1 := fold_left strip_noise_word noise_words nm in
    let nm2 := PyStr.strip nm1 in
    if decide (PyStr.len nm2 < 2) then None
    else if negb (existsb PyStr.isalpha (PyStr.chars nm2)) then None
    else Some nm2.

Definition KNOWN_COMPANY_DOMAINS : PyDict.t string :=
  [ ("careers.google.com", "Google");
    ("jobs.apple.com", "Apple");
    ("careers.microsoft.com", "Microsoft");
    ("amazon.jobs", "Amazon");
    ("careers.barclays.co.uk", "Barclays");
    ("jobs.hsbc.co.uk", "HSBC");
    ("careers.nhs.uk", "NHS");
    ("jobs.tesco.com", "Tesco");
    ("careers.sainsburys.co.uk", "Sainsburys") ].

(** [linkedin\.com/company/([^/]+)/?(?:jobs|about)?$] *)
Definition linkedin_pattern : Re.regex :=
  Re.Seq (Re.Lit "linkedin.com/company/")
    (Re.Seq (Re.Group (Re.NotCharPlus "/"))
       (Re.Seq (Re.Opt (Re.Lit "/")) (Re.Seq (Re.Opt (Re.Alt (Re.Lit "jobs") (Re.Lit "about"))) Re.Eol))).

(** [indeed\.(?:com|co\.uk)/cmp/([^/]+)] *)
Definition indeed_pattern : Re.regex :=
  Re.Seq (Re.Lit "indeed.")
    (Re.Seq (Re.Alt (Re.Lit "com") (Re.Lit "co.uk")) (Re.Seq (Re.Lit "/cmp/") (Re.Group (Re.NotCharPlus "/")))).

(** [glassdoor\.(?:com|co\.uk)/Overview/Working-at-([^-]+)-] *)
Definition glassdoor_pattern : Re.regex :=
  Re.Seq (Re.Lit "glassdoor.")
    (Re.Seq (Re.Alt (Re.Lit "com") (Re.Lit "co.uk"))
       (Re.Seq (Re.Lit "/Overview/Working-at-") (Re.Seq (Re.Group (Re.NotCharPlus "-")) (Re.Lit "-")))).

(** [reed\.co\.uk/company/([^/]+)] *)
Definition reed_pattern : Re.regex :=
  Re.Seq (Re.Lit "reed.co.uk/company/") (Re.Group (Re.NotCharPlus "/")).

(** [totaljobs\.com/company/([^/]+)] *)
Definition totaljobs_pattern : Re.regex :=
  Re.Seq (Re.Lit "totaljobs.com/company/") (Re.Group (Re.NotCharPlus "/")).

Definition url_patterns : list (Re.regex * string) :=
  [ (linkedin_pattern, "linkedin");
    (indeed_pattern, "indeed");
    (glassdoor_pattern, "glassdoor");
    (reed_pattern, "reed");
    (totaljobs_pattern, "totaljobs") ].

(** [^([^.]+)\.(?:careers?|jobs|apply|workday)\.] *)
Definition subdomain_pattern : Re.regex :=
  Re.Seq Re.Bol
    (Re.Seq (Re.Group (Re.NotCharPlus "."))
       (Re.Seq (Re.Lit ".")
          (Re.Seq (Re.Alt (Re.Seq (Re.Lit "career") (Re.Opt (Re.Lit "s")))
                  (Re.Alt (Re.Lit "jobs") (Re.Alt (Re.Lit "apply") (Re.Lit "workday"))))
             (Re.Lit ".")))).

Definition unreliable_patterns : list string :=
  [ "indeed.com/viewjob";
    "indeed.co.uk/viewjob";
    "linkedin.com/jobs/view";
    "glassdoor.com/job";
    "reed.co.uk/jobs/" ].

(** [match.group(1)], a string as soon as the group took part in the match *)
Definition group (m : Re.match_object) : option string := PyStr.str <$> Re.group1 m.

Section url.

(** [urllib.parse] checks the host of a netloc that holds both brackets
    as an IP literal (its private [_check_bracketed_netloc]) and raises
    [ValueError] when it is not one; the check is a parameter, [true]
    when the netloc passes. *)
Variable check_bracketed_netloc : string → bool.

Definition c0_control_or_space (c : ascii) : bool := (PyStr.code c <=? 32)%N.

Definition unsafe_url_byte (c : ascii) : bool :=
  bool_decide (c = "009"%char ∨ c = "013"%char ∨ c = "010"%char).

Definition scheme_char (c : ascii) : bool :=
  PyStr.isalpha c || PyStr.is_digit c
  || bool_decide (c = "+"%char ∨ c = "-"%char ∨ c = "."%char).

Definition netloc_delimiter (c : ascii) : bool :=
  bool_decide (c = "/"%char ∨ c = "?"%char ∨ c = "#"%char).

(** [url.find(':')] *)
Fixpoint find_colon (l : list ascii) : option nat :=
  match l with
  | [] => None
  | c :: l' => if decide (c = ":"%char) then Some 0 else S <$> find_colon l'
  end.

(** The text up to the first of [/], [?] and [#] ([_splitnetloc]). *)
Fixpoint up_to_delimiter (l : list ascii) : list ascii :=
  match l with
  | [] => []
  | c :: l' => if netloc_delimiter c then [] else c :: up_to_delimiter l'
  end.

(** The url once [urlsplit] has taken its scheme off. *)
Definition after_scheme (url : list ascii) : list ascii :=
  match find_colon url with
  | Some (S i) =>
      if existsb PyStr.isalpha (take 1 url) && forallb scheme_char (take (S i) url)
      then drop (S (S i)) url
      else url
  | _ => url
  end.

(** [urlparse(url).netloc], after [urllib.parse.urlsplit] of CPython 3.11:
    leading control characters and spaces are stripped, tabs and line
    breaks removed, the scheme taken off, and the netloc read between
    [//] and the next delimiter; a netloc with one bracket only raises
    [ValueError]. On ASCII text the check of the netloc under NFKC
    normalization does nothing. *)
Definition urlparse_netloc (url : string) : outcome string :=
  let url1 := PyStr.lstrip_with c0_control_or_space (PyStr.chars url) in
  let url2 := filter (λ c, unsafe_url_byte c = false) url1 in
  let url3 := after_scheme url2 in
  if bool_decide (take 2 url3 = ["/"%char; "/"%char])
  then
    let netloc := up_to_delimiter (drop 2 url3) in
    let has_open := bool_decide ("["%char ∈ netloc) in
    let has_close := bool_decide ("]"%char ∈ netloc) in
    if (has_open && negb has_close) || (has_close && negb has_open)
    then Raises ValueError
    else if has_open && has_close && negb (check_bracketed_netloc (PyStr.str netloc))
    then Raises ValueError
    else Ok (PyStr.str netloc)
  else Ok "".

(** The loop over [KNOWN_COMPANY_DOMAINS]. *)
Fixpoint known_company_in (table : PyDict.t string) (domain : string) : option string :=
  match table with
  | [] => None
  | (known_domain, company) :: table' =>
      if PyStr.contains domain known_domain then Some company
      else known_company_in table' domain
  end.

Definition known_company (domain : string) : option string :=
  known_company_in KNOWN_COMPANY_DOMAINS domain.

(** What one extraction rule returns once its pattern has matched: the
    cleaned company name, or nothing when cleaning rejects it. A group
    that took no part in the match is [None], on which [replace] raises. *)
Definition cleaned_group (m : Re.match_object) (hyphens : bool) : outcome (option string) :=
  match group m with
  | Some g =>
      let extracted := title (if hyphens then hyphens_to_spaces g else g) in
      Ok (_clean_company_name extracted)
  | None => Raises AttributeError
  end.

(** The loop over [url_patterns]. *)
Fixpoint pattern_stage (patterns : list (Re.regex * string)) (url_lower : string)
  : outcome (option string) :=
  match patterns with
  | [] => Ok None
  | (pattern, _) :: patterns' =>
      match Re.search pattern url_lower with
      | Some m =>
          cleaned ← cleaned_group m true;
          match cleaned with
          | Some c => Ok (Some c)
          | None => pattern_stage patterns' url_lower
          end
      | None => pattern_stage patterns' url_lower
      end
  end.

Definition subdomain_stage (domain : string) : outcome (option string) :=
  match Re.rmatch subdomain_pattern domain with
  | Some m => cleaned_group m false
  | None => Ok None
  end.

(** The closing loop over [unreliable_patterns]: it returns [None] on a
    hit, as does the statement after it. *)
Definition refusal_stage (url_lower : string) : option string :=
  if existsb (λ pattern, PyStr.contains url_lower pattern) unreliable_patterns
  then None
  else None.

Definition extract_company_from_url (url : string) : outcome (option string) :=
  let url_lower := PyStr.lower url in
  netloc ← urlparse_netloc url;
  let domain := PyStr.lower netloc in
  match known_company domain with
  | Some company => Ok (Some company)
  | None =>
      from_pattern ← pattern_stage url_patterns url_lower;
      match from_pattern with
      | Some cleaned => Ok (Some cleaned)
      | None =>
          from_subdomain ← subdomain_stage domain;
          match from_subdomain with
          | Some cleaned => Ok (Some cleaned)
          | None => Ok (refusal_stage url_lower)
          end
      end
  end.

End url.

(** ** The callers of the matcher and of the extractor *)

(** *** The command line ([main] of [sponsor_lookup.py]) *)

(** The verdict that [main] prints under the matches, read off the score
    of the best one. *)
Inductive band : Type := Confirmed | PossibleMatch | NotFound.

Definition band_of (score : Q) : band :=
  if geq score 0.8 then Confirmed
  else if geq score 0.5 then PossibleMatch
  else NotFound.

Inductive report : Type :=
  | NoMatchingSponsors
  | Verdict (b : band).

(** The branch [--company] of [main], as far as its verdict goes: the
    search with the default [max_results] of 10, the message for an empty
    result, else the band of [results[0]]. *)
Definition company_report (reg : Registry) (company : string) (threshold : Q) : outcome report :=
  results ← search reg company threshold 10;
  match results with
  | [] => Ok NoMatchingSponsors
  | best_match :: _ => Ok (Verdict (band_of (snd best_match)))
  end.

(** *** The web API ([api.py]) *)

(** The matches that the handler of [/api/search] serializes: the search
    with [max_results=50], deduplicated, cut to [limit]. *)
Definition search_endpoint_results (reg : Registry) (company : string) (threshold : Q)
    (limit : Z) : outcome (list Match) :=
  results ← search reg company threshold 50;
  let results := deduplicate_results results in
  Ok (slice_to limit results).

(** [urllib.parse.quote(s)] with its default [safe='/']: the unreserved
    characters and the slash stay, every other character becomes [%XX]. *)
Definition always_safe (c : ascii) : bool :=
  PyStr.isalpha c || PyStr.is_digit c
  || bool_decide (c = "_"%char ∨ c = "."%char ∨ c = "-"%char ∨ c = "~"%char).

Definition hex_digit (n : N) : ascii :=
  ascii_of_N (if (n <? 10)%N then 48 + n else 55 + n).

Definition quote_char (c : ascii) : list ascii :=
  if always_safe c || bool_decide (c = "/"%char) then [c]
  else ["%"%char; hex_digit (PyStr.code c / 16); hex_digit (PyStr.code c mod 16)].

Definition quote (s : string) : string := PyStr.str (flat_map quote_char (PyStr.chars s)).

(** [", ".join(parts)] *)
Fixpoint join_comma (parts : list string) : string :=
  match parts with
  | [] => ""
  | [part] => part
  | part :: parts' => part +:+ ", " +:+ join_comma parts'
  end.

(** [[x.strip()]] when [x and x.strip()], for an argument that may be [None] *)
Definition location_part (x : option string) : list string :=
  match x with
  | None => []
  | Some x =>
      if decide (x = "") then []
      else if decide (PyStr.strip x = "") then []
      else [PyStr.strip x]
  end.

Definition generate_external_links (company_name : string) (city county : option string)
  : PyDict.t string :=
  let location_parts := location_part city ++ location_part county in
  let location_str := join_comma location_parts in
  let company_query := quote company_name in
  let company_location_query :=
    if decide (location_str = "") then company_query
    else quote (company_name +:+ " " +:+ location_str +:+ " UK") in
  let location_query :=
    if decide (location_str = "") then "United+Kingdom" else quote location_str in
  [ ("linkedin_search",
     "https://www.linkedin.com/search/results/companies/?keywords=" +:+ company_query
     +:+ "&location=United%20Kingdom");
    ("linkedin_jobs",
     "https://www.linkedin.com/jobs/search?keywords=" +:+ company_query
     +:+ "&location=United%20Kingdom");
    ("indeed_jobs",
     "https://uk.indeed.com/jobs?q=" +:+ company_query +:+ "&l="
     +:+ (if decide (location_str = "") then "United+Kingdom" else location_query));
    ("indeed_company", "https://uk.indeed.com/cmp/" +:+ company_query);
    ("glassdoor_overview",
     "https://www.glassdoor.co.uk/Overview/Working-at-" +:+ company_query +:+ "-EI_IE.htm");
    ("glassdoor_jobs",
     "https://www.glassdoor.co.uk/Search/results.htm?keyword=" +:+ company_query);
    ("companies_house",
     "https://find-and-update.company-information.service.gov.uk/search?q="
     +:+ company_query);
    ("google", "https://www.google.com/search?q=" +:+ company_location_query);
    ("google_maps",
     "https://www.google.com/maps/search/"
     +:+ (if decide (location_str = "") then company_query
          else quote (company_name +:+ " " +:+ location_str)));
    ("reed", "https://www.reed.co.uk/jobs/" +:+ company_query +:+ "-jobs");
    ("totaljobs", "https://www.totaljobs.com/jobs/" +:+ company_query);
    ("cwjobs", "https://www.cwjobs.co.uk/jobs/" +:+ company_query);
    ("source", "uk_specific");
    ("location_used", if decide (location_str = "") then "United Kingdom" else location_str) ].

(** The values that [request.get_json()] hands to a handler: [None] for
    the body [null], [bool], [int], [float], [str], [list] and [dict]. *)
Inductive json : Type :=
  | JNull
  | JBool (b : bool)
  | JInt (n : Z)
  | JFloat (f : spec_float)
  | JStr (s : string)
  | JArr (items : list json)
  | JObj (members : PyDict.t json).

(** [bool(v)] *)
Definition truthy (v : json) : bool :=
  match v with
  | JNull => false
  | JBool b => b
  | JInt n => negb (n =? 0)%Z
  | JFloat f => match f with S754_zero _ => false | _ => true end
  | JStr s => negb (bool_decide (s = ""))
  | JArr items => match items with [] => false | _ :: _ => true end
  | JObj members => match members with [] => false | _ :: _ => true end
  end.

(** [x == k] for a string [k] *)
Definition is_text (k : string) (x : json) : bool :=
  match x with
  | JStr s => bool_decide (s = k)
  | _ => false
  end.

(** [k in v] for a string [k]: a key of a [dict], an item of a [list], a
    substring of a [str]; a [TypeError] on the values that are no
    containers. *)
Definition json_contains (v : json) (k : string) : outcome bool :=
  match v with
  | JObj members => Ok (PyDict.has members k)
  | JArr items => Ok (existsb (is_text k) items)
  | JStr s => Ok (PyStr.contains s k)
  | JNull | JBool _ | JInt _ | JFloat _ => Raises TypeError
  end.

(** [v[k]] for a string [k]: only a [dict] takes a string as an index. *)
Definition json_item (v : json) (k : string) : outcome json :=
  match v with
  | JObj members => PyDict.item members k
  | _ => Raises TypeError
  end.

(** What the handler of [/api/url] answers: the error 400, the message
    that no company could be extracted, or the company with the details of
    its sponsor, the record and its links, if it is one. *)
Inductive url_response : Type :=
  | UrlRequired
  | NotExtracted
  | Extracted (company : string) (sponsor_details : option (Sponsor * PyDict.t string)).

(** The handler of [/api/url] on the body [data] of the request. The
    extractor starts with [url.lower()], which only a [str] has. *)
Definition check_url (check_bracketed_netloc : string → bool) (reg : Registry) (data : json)
  : outcome url_response :=
  url_missing ←
    (if negb (truthy data) then Ok true
     else (has_url ← json_contains data "url"; Ok (negb has_url)));
  if (url_missing : bool) then Ok UrlRequired
  else
    url ← json_item data "url";
    company ←
      match url with
      | JStr url => extract_company_from_url check_bracketed_netloc url
      | _ => Raises AttributeError
      end;
    match company with
    | None => Ok NotExtracted
    | Some company =>
        if decide (company = "") then Ok NotExtracted
        else
          sponsor ← is_sponsor reg company 0.8;
          Ok (Extracted company
                (match sponsor with
                 | Some sponsor =>
                     Some (sponsor,
                           generate_external_links (name sponsor) (Some (city sponsor))
                             (Some (county sponsor)))
                 | None => None
                 end))
    end.

(** The counting loops of the handler of [/api/stats]:
    [counts[key] = counts.get(key, 0) + 1] for each sponsor. *)
Definition count_step (key : Sponsor → string) (counts : PyDict.t nat) (s : Sponsor)
  : PyDict.t nat :=
  PyDict.set counts (key s) (default 0 (PyDict.get counts (key s)) + 1).

Definition tally (key : Sponsor → string) (sps : list Sponsor) : PyDict.t nat :=
  fold_left (count_step key) sps [].

(** [len(set(s['name'] for s in lookup.sponsors))] *)
Definition unique_companies (sps : list Sponsor) : nat :=
  size (list_to_set (map name sps) : gset string).

(** ** Notions used in the statements and in the proofs *)

(** The characters the normalizer lets through unchanged. *)
Definition kept (c : ascii) : Prop :=
  PyStr.is_word c || PyStr.isspace c = true ∧ PyStr.lower_char c = c.

(** Every whitespace character of [l] is a single space, alone in its
    run; [b] tells that a space precedes [l]. *)
Fixpoint spaced (b : bool) (l : list ascii) : Prop :=
  match l with
  | [] => True
  | c :: l' =>
      if PyStr.isspace c then b = false ∧ c = " "%char ∧ spaced true l'
      else spaced false l'
  end.

(** [l] does not start with a character of [p]. *)
Definition starts_clear (p : ascii → bool) (l : list ascii) : Prop :=
  match l with [] => True | c :: _ => p c = false end.

Definition normalize_chars (l : list ascii) : list ascii :=
  PyStr.strip_with PyStr.isspace
    (collapse_spaces false (drop_punctuation (map PyStr.lower_char l))).

(** The invariant of the registry that [_load_data] builds. *)
Record wf_registry (reg : Registry) : Prop := {
  wf_keys : NoDup (PyDict.keys (name_to_sponsors reg));
  wf_bucket : ∀ nm bucket r,
    PyDict.get (name_to_sponsors reg) nm = Some bucket → r ∈ bucket → _normalize (name r) = nm;
  wf_words : ∀ w names nm,
    word_index reg !! w = Some names → nm ∈ names →
    is_Some (PyDict.get (name_to_sponsors reg) nm);
  wf_sponsors : ∀ r,
    r ∈ sponsors reg →
    ∃ bucket, PyDict.get (name_to_sponsors reg) (_normalize (name r)) = Some bucket ∧ r ∈ bucket
}.

(** The records of a bucket that bring a company name not yet in [seen],
    each name once: the ones the exact stage scores. *)
Fixpoint first_by_name (seen : gset string) (bucket : list Sponsor) : list Sponsor :=
  match bucket with
  | [] => []
  | r :: bucket' =>
      if decide (name r ∈ seen) then first_by_name seen bucket'
      else r :: first_by_name ({[name r]} ∪ seen) bucket'
  end.

Definition scored (score : Q) (sps : list Sponsor) : list Match :=
  map (λ sponsor, (sponsor, score)) sps.

(** The score the substring stage gives a name, if any. *)
Definition substring_score (query_norm nm : string) : option Q :=
  if PyStr.contains nm query_norm then Some 0.9%Q
  else if bool_decide (5 < PyStr.len query_norm) && PyStr.contains query_norm nm
  then Some 0.85%Q
  else None.

(** What the substring stage appends for one item of [name_to_sponsors]
    when it starts from the set [seen]. *)
Definition substring_hits (query_norm : string) (seen : gset string)
    (item : string * list Sponsor) : list Match :=
  if decide (item.1 ∈ seen) then []
  else match substring_score query_norm item.1 with
       | Some score => scored score item.2
       | None => []
       end.

(** What the scoring stage appends for one candidate name when it starts
    from the set [seen]. *)
Definition word_hits (reg : Registry) (query_norm : string) (threshold : Q)
    (seen : gset string) (nm : string) : list Match :=
  if decide (nm ∈ seen) then []
  else if geq (candidate_score query_norm nm) threshold
  then scored (candidate_score query_norm nm) (default [] (PyDict.get (name_to_sponsors reg) nm))
  else [].

Definition query_words_of (query_norm : string) : list string :=
  filter (λ w, 2 < PyStr.len w) (PyStr.split query_norm).

Definition exact_hits (reg : Registry) (query_norm : string) : list Match :=
  fst (exact_stage reg query_norm).

Definition exact_seen (reg : Registry) (query_norm : string) : gset string :=
  snd (exact_stage reg query_norm).

Definition all_substring_hits (reg : Registry) (query_norm : string) : list Match :=
  flat_map (substring_hits query_norm (exact_seen reg query_norm)) (name_to_sponsors reg).

Definition substring_seen (reg : Registry) (query_norm : string) : gset string :=
  snd (substring_stage reg query_norm (exact_stage reg query_norm)).

Definition all_word_hits (reg : Registry) (query_norm : string) (threshold : Q) : list Match :=
  flat_map (word_hits reg query_norm threshold (substring_seen reg query_norm))
    (elements (candidate_stage reg (query_words_of query_norm))).

(** The list [search] holds before it sorts it. *)
Definition unsorted (reg : Registry) (query : string) (threshold : Q) : list Match :=
  let query_norm := _normalize query in
  exact_hits reg query_norm ++ all_substring_hits reg query_norm
  ++ all_word_hits reg query_norm threshold.

(** The number of matches of [l] with a score of [s] or more. *)
Definition count_at_least (s : Q) (l : list Match) : nat :=
  length (filter (λ m, geq (score_of m) s = true) l).

(** [l] is in the order of decreasing scores. *)
Definition sorted_desc (l : list Match) : Prop :=
  StronglySorted (λ a b, (score_of b <= score_of a)%Q) l.

(** The invariant of the loop of [deduplicate_results] once it has read
    the matches [read]: [seen] keeps, under each company name read, a match
    of that name that no match read so far outscores. *)
Record dedup_inv (seen : PyDict.t Match) (read : list Match) : Prop := {
  dedup_keys : NoDup (PyDict.keys seen);
  dedup_best : ∀ k m,
    PyDict.get seen k = Some m →
    name m.1 = k ∧ m ∈ read ∧ ∀ m', m' ∈ read → name m'.1 = k → (m'.2 <= m.2)%Q;
  dedup_all : ∀ m, m ∈ read → is_Some (PyDict.get seen (name m.1))
}.

(** The record that [_load_data] makes of a row, none for a row whose
    organisation name is blank. *)
Definition row_sponsor (row : Row) : option Sponsor :=
  let org_name := field (organisation_name row) in
  if decide (org_name = "") then None
  else Some {| name := org_name;
               city := field (town_city row);
               county := field (county_column row);
               rating := field (type_and_rating row);
               route := field (route_column row) |}.

(** The registry records whose name normalizes to [nm], in file order. *)
Definition records_named (reg : Registry) (nm : string) : list Sponsor :=
  filter (λ r, _normalize (name r) = nm) (sponsors reg).

(** [nm] is listed under the word [w] in the word index. *)
Definition indexed_under (reg : Registry) (w nm : string) : Prop :=
  ∃ names, word_index reg !! w = Some names ∧ nm ∈ names.

(** The invariant that ties the buckets to the list of records. *)
Definition buckets_exact (reg : Registry) : Prop :=
  ∀ nm, PyDict.get (name_to_sponsors reg) nm
        = match records_named reg nm with [] => None | bucket => Some bucket end.

(** The invariant that ties the word index to the keys of the buckets. *)
Definition word_index_exact (reg : Registry) : Prop :=
  ∀ w nm, indexed_under reg w nm
          ↔ is_Some (PyDict.get (name_to_sponsors reg) nm)
            ∧ w ∈ PyStr.split nm ∧ 2 < PyStr.len w.

(** The patterns in which the capturing group takes part in every match. *)
Fixpoint captures (r : Re.regex) : bool :=
  match r with
  | Re.Group _ => true
  | Re.Seq r1 r2 => captures r1 || captures r2
  | Re.Alt r1 r2 => captures r1 && captures r2
  | _ => false
  end.

(** A name as the cleaning lets it through: two characters or more, a
    letter among them, no whitespace at either end. *)
Definition well_formed_name (s : string) : Prop :=
  2 ≤ PyStr.len s
  ∧ existsb PyStr.isalpha (PyStr.chars s) = true
  ∧ (∀ c, head (PyStr.chars s) = Some c → PyStr.isspace c = false)
  ∧ (∀ c, last (PyStr.chars s) = Some c → PyStr.isspace c = false).

(** The characters of the links that [generate_external_links] builds:
    the unreserved ones and the delimiters of its templates. *)
Definition url_char (c : ascii) : bool :=
  always_safe c
  || bool_decide (c = ":"%char ∨ c = "/"%char ∨ c = "?"%char ∨ c = "="%char
                  ∨ c = "&"%char ∨ c = "%"%char ∨ c = "+"%char).

(** Reading back the first character of a quoted string: the inverse of
    [quote_char], used to show that [quote] loses nothing. *)
Definition hex_value (c : ascii) : N :=
  if PyStr.is_digit c then PyStr.code c - 48 else PyStr.code c - 55.

Definition quoted_head (l : list ascii) : option ascii :=
  match l with
  | [] => None
  | c :: l' =>
      if bool_decide (c = "%"%char) then
        match l' with
        | h1 :: h2 :: _ => Some (ascii_of_N (16 * hex_value h1 + hex_value h2))
        | _ => None
        end
      else Some c
  end.

(** The characters that [quote] leaves as they are. *)
Definition unreserved (c : ascii) : bool := always_safe c || bool_decide (c = "/"%char).

(** * Properties *)

(** ** The normalizer is idempotent *)

Example normalize_barclays : _normalize "  Barclays   Bank, P.L.C. " = "barclays bank plc".
Proof. reflexivity. Qed.

Section normalizer.

Implicit Types (c : ascii) (l : list ascii) (b : bool).

Lemma lower_char_kept c :
  PyStr.is_word (PyStr.lower_char c) || PyStr.isspace (PyStr.lower_char c) = true →
  kept (PyStr.lower_char c).
Proof.
  intros H; split; [exact H|].
  destruct c as [[] [] [] [] [] [] [] []]; reflexivity.
Qed.

Lemma drop_punctuation_kept l : Forall kept (drop_punctuation (map PyStr.lower_char l)).
Proof.
  unfold drop_punctuation. induction l as [|c l IH]; simpl; [constructor|].
  rewrite filter_cons. case_decide; [|done].
  constructor; [by apply lower_char_kept|done].
Qed.

Lemma collapse_spaces_kept b l : Forall kept l → Forall kept (collapse_spaces b l).
Proof.
  intros H; revert b; induction H as [|c l Hc _ IH]; intros b; simpl; [constructor|].
  destruct (PyStr.isspace c); [destruct b|]; auto.
  constructor; [|auto]. split; reflexivity.
Qed.

Lemma collapse_spaces_spaced b l : spaced b (collapse_spaces b l).
Proof.
  revert b; induction l as [|c l IH]; intros b; simpl; [done|].
  destruct (PyStr.isspace c) eqn:Hc.
  - destruct b; [apply IH|]. simpl. split_and!; [done..|apply IH].
  - simpl. rewrite Hc. apply IH.
Qed.

Lemma collapse_spaces_fixed b l : spaced b l → collapse_spaces b l = l.
Proof.
  revert b; induction l as [|c l IH]; intros b; simpl; [done|].
  destruct (PyStr.isspace c).
  - intros (-> & -> & H). by rewrite IH.
  - intros H. by rewrite IH.
Qed.

Lemma lstrip_with_Forall (P : ascii → Prop) p l :
  Forall P l → Forall P (PyStr.lstrip_with p l).
Proof.
  induction 1 as [|c l Hc Hl IH]; simpl; [constructor|].
  destruct (p c); [done|by constructor].
Qed.

Lemma rstrip_with_Forall (P : ascii → Prop) p l :
  Forall P l → Forall P (PyStr.rstrip_with p l).
Proof.
  induction 1 as [|c l Hc Hl IH]; simpl; [constructor|].
  destruct (PyStr.rstrip_with p l); [destruct (p c)|]; auto.
Qed.

Lemma spaced_weaken b l : spaced b l → spaced false l.
Proof.
  destruct l as [|c l]; simpl; [done|].
  destruct (PyStr.isspace c); [|done]. by intros (_ & -> & ?).
Qed.

Lemma lstrip_spaced b l : spaced b l → spaced false (PyStr.lstrip_with PyStr.isspace l).
Proof.
  revert b; induction l as [|c l IH]; intros b; simpl; [done|].
  destruct (PyStr.isspace c) eqn:Hc.
  - intros (_ & _ & H). by eapply IH.
  - intros H. simpl. by rewrite Hc.
Qed.

Lemma rstrip_spaced b l : spaced b l → spaced b (PyStr.rstrip_with PyStr.isspace l).
Proof.
  revert b; induction l as [|c l IH]; intros b; simpl; [done|].
  destruct (PyStr.isspace c) eqn:Hc.
  - intros (-> & -> & H). apply IH in H.
    destruct (PyStr.rstrip_with PyStr.isspace l) as [|c' r]; [done|].
    simpl. split_and!; done.
  - intros H. apply IH in H.
    destruct (PyStr.rstrip_with PyStr.isspace l) as [|c' r]; simpl; by rewrite Hc.
Qed.

Lemma lstrip_starts_clear p l : starts_clear p (PyStr.lstrip_with p l).
Proof.
  induction l as [|c l IH]; simpl; [done|].
  destruct (p c) eqn:Hc; [done|]. simpl. done.
Qed.

Lemma rstrip_starts_clear p l : starts_clear p l → starts_clear p (PyStr.rstrip_with p l).
Proof.
  destruct l as [|c l]; simpl; [done|]. intros Hc.
  destruct (PyStr.rstrip_with p l); [by rewrite Hc|done].
Qed.

Lemma lstrip_fixed p l : starts_clear p l → PyStr.lstrip_with p l = l.
Proof. destruct l as [|c l]; simpl; [done|]. by intros ->. Qed.

Lemma rstrip_idemp p l :
  PyStr.rstrip_with p (PyStr.rstrip_with p l) = PyStr.rstrip_with p l.
Proof.
  induction l as [|c l IH]; simpl; [done|].
  destruct (PyStr.rstrip_with p l) as [|c' r] eqn:Hr.
  - destruct (p c) eqn:Hc; simpl; [done|]. by rewrite Hc.
  - simpl in *. by rewrite IH.
Qed.

Lemma strip_idemp p l : PyStr.strip_with p (PyStr.strip_with p l) = PyStr.strip_with p l.
Proof.
  unfold PyStr.strip_with.
  rewrite (lstrip_fixed p (PyStr.rstrip_with p _)).
  - apply rstrip_idemp.
  - apply rstrip_starts_clear, lstrip_starts_clear.
Qed.

Lemma kept_fixed l : Forall kept l → drop_punctuation (map PyStr.lower_char l) = l.
Proof.
  unfold drop_punctuation. induction 1 as [|c l [Hk Hc] _ IH]; simpl; [done|].
  rewrite filter_cons, Hc. case_decide; [|done]. by rewrite IH.
Qed.

Lemma normalize_chars_idemp l : normalize_chars (normalize_chars l) = normalize_chars l.
Proof.
  unfold normalize_chars at 1.
  rewrite kept_fixed, collapse_spaces_fixed.
  - apply strip_idemp.
  - apply rstrip_spaced. eapply lstrip_spaced, collapse_spaces_spaced.
  - apply rstrip_with_Forall, lstrip_with_Forall, collapse_spaces_kept,
      drop_punctuation_kept.
Qed.

Lemma chars_str l : PyStr.chars (PyStr.str l) = l.
Proof. apply list_ascii_of_string_of_list_ascii. Qed.

Lemma str_chars (s : string) : PyStr.str (PyStr.chars s) = s.
Proof. apply string_of_list_ascii_of_string. Qed.

Lemma normalize_idempotent (s : string) : _normalize (_normalize s) = _normalize s.
Proof.
  unfold _normalize. rewrite chars_str.
  f_equal. apply normalize_chars_idemp.
Qed.

End normalizer.

(** ** Dictionaries *)

Section dict.
Context {V : Type}.
Implicit Types (d : PyDict.t V) (k : string) (v : V).

Lemma get_set_eq d k v : PyDict.get (PyDict.set d k v) k = Some v.
Proof.
  induction d as [|[k' v'] d IH]; simpl.
  - by rewrite decide_True.
  - case_decide; simpl; [by rewrite decide_True|by rewrite decide_False].
Qed.

Lemma get_set_ne d k k' v : k ≠ k' → PyDict.get (PyDict.set d k v) k' = PyDict.get d k'.
Proof.
  intros Hne. induction d as [|[k0 v0] d IH]; simpl.
  - by rewrite decide_False.
  - case_decide; simpl.
    + subst k0. by rewrite !decide_False.
    + by rewrite IH.
Qed.

Lemma get_None_keys d k : PyDict.get d k = None ↔ k ∉ PyDict.keys d.
Proof.
  induction d as [|[k' v'] d IH]; simpl.
  - split; [intros _; apply not_elem_of_nil|done].
  - rewrite not_elem_of_cons, <- IH. case_decide as Hk.
    + split; [done|]. intros [? _]. done.
    + split; [intros ?; split; [congruence|done]|by intros [_ ?]].
Qed.

Lemma get_Some_elem d k v : PyDict.get d k = Some v → (k, v) ∈ d.
Proof.
  induction d as [|[k' v'] d IH]; simpl; [done|].
  case_decide.
  - intros [= ->]. subst. left.
  - intros H'. right. auto.
Qed.

Lemma elem_get_Some d k v : NoDup (PyDict.keys d) → (k, v) ∈ d → PyDict.get d k = Some v.
Proof.
  induction d as [|[k' v'] d IH]; simpl; [by intros _ ?%elem_of_nil|].
  intros [Hk Hd]%NoDup_cons [Heq|Hin]%elem_of_cons.
  - injection Heq as -> ->. by rewrite decide_True.
  - rewrite decide_False; [auto|].
    intros ->. apply Hk. apply (list_elem_of_fmap_2 fst) in Hin. exact Hin.
Qed.

Lemma keys_set_present d k v :
  is_Some (PyDict.get d k) → PyDict.keys (PyDict.set d k v) = PyDict.keys d.
Proof.
  induction d as [|[k' v'] d IH]; simpl; [by intros [? ?]|].
  case_decide; simpl; [done|]. intros H'. by rewrite IH.
Qed.

Lemma keys_set_absent d k v :
  PyDict.get d k = None → PyDict.keys (PyDict.set d k v) = PyDict.keys d ++ [k].
Proof.
  induction d as [|[k' v'] d IH]; simpl; [done|].
  case_decide; simpl; [done|]. intros H'. by rewrite IH.
Qed.

Lemma NoDup_keys_set d k v :
  NoDup (PyDict.keys d) → NoDup (PyDict.keys (PyDict.set d k v)).
Proof.
  intros Hd. destruct (PyDict.get d k) eqn:Hg.
  - by rewrite keys_set_present.
  - rewrite keys_set_absent by done.
    apply NoDup_app. split_and!; [done| |apply NoDup_singleton].
    intros x Hx ->%list_elem_of_singleton. by apply get_None_keys in Hg.
Qed.

End dict.

(** ** The loader establishes the invariant of the registry *)

Section loader.

Lemma index_word_lookup normalized wi word w names nm :
  index_word normalized wi word !! w = Some names → nm ∈ names →
  nm = normalized ∨ ∃ names0, wi !! w = Some names0 ∧ nm ∈ names0.
Proof.
  unfold index_word. case_decide as Hlen; [|eauto].
  destruct (decide (w = word)) as [->|Hne].
  - rewrite lookup_insert_eq. intros [= <-].
    intros [->%elem_of_singleton|Hin]%elem_of_union; [by left|right].
    case_decide as Hs.
    + destruct Hs as [names0 Hs]. rewrite Hs in Hin |- *. eauto.
    + rewrite lookup_insert_eq in Hin. simpl in Hin. set_solver.
  - rewrite lookup_insert_ne by done.
    case_decide; [|rewrite lookup_insert_ne by done]; eauto.
Qed.

Lemma index_words_lookup normalized words wi w names nm :
  fold_left (index_word normalized) words wi !! w = Some names → nm ∈ names →
  nm = normalized ∨ ∃ names0, wi !! w = Some names0 ∧ nm ∈ names0.
Proof.
  revert wi names; induction words as [|word words IH]; intros wi names; simpl; [eauto|].
  intros H Hin. destruct (IH _ _ H Hin) as [->|(names0 & H0 & Hin0)]; [by left|].
  eapply index_word_lookup; eauto.
Qed.

Lemma file_under_eq nts normalized sponsor :
  PyDict.get (file_under nts normalized sponsor) normalized
  = Some (default [] (PyDict.get nts normalized) ++ [sponsor]).
Proof.
  unfold file_under, PyDict.has. rewrite get_set_eq.
  destruct (PyDict.get nts normalized) eqn:Hg; [by rewrite Hg|].
  by rewrite get_set_eq.
Qed.

Lemma file_under_ne nts normalized sponsor nm :
  normalized ≠ nm →
  PyDict.get (file_under nts normalized sponsor) nm = PyDict.get nts nm.
Proof.
  intros Hne. unfold file_under, PyDict.has. rewrite get_set_ne by done.
  destruct (PyDict.get nts normalized); [done|]. by rewrite get_set_ne.
Qed.

Lemma file_under_NoDup nts normalized sponsor :
  NoDup (PyDict.keys nts) → NoDup (PyDict.keys (file_under nts normalized sponsor)).
Proof.
  intros H. unfold file_under. apply NoDup_keys_set.
  destruct (PyDict.has nts normalized); [done|]. by apply NoDup_keys_set.
Qed.

Lemma load_row_wf reg row : wf_registry reg → wf_registry (load_row reg row).
Proof.
  intros [Hk Hb Hw Hs]. unfold load_row.
  case_decide as Hname; [by split|].
  set (normalized := _normalize (field (organisation_name row))).
  set (sponsor := mkSponsor _ _ _ _ _).
  split; cbn [name_to_sponsors sponsors word_index].
  - by apply file_under_NoDup.
  - intros nm bucket r. destruct (decide (normalized = nm)) as [<-|Hne].
    + rewrite file_under_eq. intros [= <-].
      intros [Hin| ->%list_elem_of_singleton]%elem_of_app; [|done].
      destruct (PyDict.get (name_to_sponsors reg) normalized) eqn:Hg; simpl in Hin.
      * eapply Hb; eauto.
      * by apply elem_of_nil in Hin.
    + rewrite file_under_ne by done. apply Hb.
  - intros w names nm Hl Hin.
    destruct (index_words_lookup _ _ _ _ _ _ Hl Hin) as [->|(names0 & H0 & Hin0)].
    + rewrite file_under_eq. eauto.
    + destruct (decide (normalized = nm)) as [<-|Hne].
      * rewrite file_under_eq. eauto.
      * rewrite file_under_ne by done. eauto.
  - intros r [Hin| ->%list_elem_of_singleton]%elem_of_app.
    + destruct (Hs r Hin) as (bucket & Hg & Hr).
      destruct (decide (normalized = _normalize (name r))) as [Heq|Hne].
      * rewrite <- Heq in *. rewrite file_under_eq, Hg. simpl.
        eexists; split; [done|]. apply elem_of_app. by left.
      * rewrite file_under_ne by done. eauto.
    + change (_normalize (name sponsor)) with normalized. rewrite file_under_eq.
      eexists; split; [done|]. apply elem_of_app. right. by apply list_elem_of_singleton.
Qed.

Lemma empty_registry_wf : wf_registry empty_registry.
Proof.
  split; simpl.
  - constructor.
  - done.
  - intros w names nm. by rewrite lookup_empty.
  - intros r ?%elem_of_nil. done.
Qed.

Lemma load_rows_wf rows reg : wf_registry reg → wf_registry (fold_left load_row rows reg).
Proof.
  revert reg; induction rows as [|row rows IH]; intros reg H; simpl; [done|].
  apply IH, load_row_wf, H.
Qed.

Lemma load_data_wf rows : wf_registry (_load_data rows).
Proof. apply load_rows_wf, empty_registry_wf. Qed.

End loader.

(** ** Lists *)

Section lists.
Context {A B : Type}.
Implicit Types (f g : A → list B) (l : list A).

Lemma flat_map_ext_elem f g l : (∀ x, x ∈ l → f x = g x) → flat_map f l = flat_map g l.
Proof.
  induction l as [|x l IH]; simpl; [done|]. intros H.
  rewrite H by left. rewrite IH; [done|]. intros y Hy. apply H. by right.
Qed.

Lemma elem_of_flat_map f l y : y ∈ flat_map f l ↔ ∃ x, x ∈ l ∧ y ∈ f x.
Proof.
  rewrite list_elem_of_In, in_flat_map. by setoid_rewrite list_elem_of_In.
Qed.

Lemma filter_none (P : A → Prop) `{!∀ x, Decision (P x)} l :
  (∀ x, x ∈ l → ¬ P x) → filter P l = [].
Proof.
  induction l as [|x l IH]; [done|]. intros Hall.
  rewrite filter_cons_False by (apply Hall; left).
  apply IH. intros y Hy. apply Hall. by right.
Qed.

Lemma flat_map_length_le f g l :
  (∀ x, x ∈ l → length (f x) ≤ length (g x)) →
  length (flat_map f l) ≤ length (flat_map g l).
Proof.
  induction l as [|x l IH]; simpl; [done|]. intros H.
  rewrite !length_app. specialize (H x) as Hx. specialize (Hx ltac:(left)).
  assert (length (flat_map f l) ≤ length (flat_map g l)); [|lia].
  apply IH. intros y Hy. apply H. by right.
Qed.

End lists.

(** ** The stages of the matcher, one by one *)

Section stages.

Lemma exact_fold bucket results seen :
  fst (fold_left exact_step bucket (results, seen))
  = results ++ scored 1 (first_by_name seen bucket).
Proof.
  revert results seen; induction bucket as [|r bucket IH]; intros results seen; simpl.
  - by rewrite app_nil_r.
  - case_decide; [apply IH|]. rewrite IH. by rewrite <- app_assoc.
Qed.

Lemma exact_fold_seen bucket results seen x :
  x ∈ snd (fold_left exact_step bucket (results, seen)) ↔ x ∈ seen ∨ x ∈ map name bucket.
Proof.
  revert results seen; induction bucket as [|r bucket IH]; intros results seen; simpl.
  - rewrite elem_of_nil. tauto.
  - rewrite elem_of_cons. case_decide as Hin; rewrite IH.
    + split; [tauto|]. intros [?|[->|?]]; auto.
    + rewrite elem_of_union, elem_of_singleton. tauto.
Qed.

Lemma substring_hits_ext query_norm seen seen' item :
  (item.1 ∈ seen ↔ item.1 ∈ seen') →
  substring_hits query_norm seen item = substring_hits query_norm seen' item.
Proof. unfold substring_hits. intros H. do 2 case_decide; tauto. Qed.

Lemma substring_step_spec query_norm results seen item :
  ∃ seen', substring_step query_norm (results, seen) item
           = (results ++ substring_hits query_norm seen item, seen')
           ∧ (∀ x, x ∈ seen → x ∈ seen')
           ∧ (∀ x, x ∈ seen' → x ∈ seen ∨ x = item.1).
Proof.
  destruct item as [nm sps]. unfold substring_step, substring_hits, substring_score. simpl.
  case_decide.
  - exists seen. rewrite app_nil_r. auto.
  - destruct (PyStr.contains nm query_norm).
    + eexists; split_and!; [done|intros x ?; apply elem_of_union; by right|].
      intros x [?%elem_of_singleton|?]%elem_of_union; auto.
    + destruct (bool_decide _ && _).
      * eexists; split_and!; [done|intros x ?; apply elem_of_union; by right|].
        intros x [?%elem_of_singleton|?]%elem_of_union; auto.
      * exists seen. rewrite app_nil_r. auto.
Qed.

Lemma substring_fold query_norm items results seen :
  NoDup (PyDict.keys items) →
  fst (fold_left (substring_step query_norm) items (results, seen))
  = results ++ flat_map (substring_hits query_norm seen) items.
Proof.
  revert results seen; induction items as [|item items IH]; intros results seen;
    cbn [fold_left flat_map PyDict.keys map].
  - by rewrite app_nil_r.
  - intros [Hk Hnd]%NoDup_cons.
    destruct (substring_step_spec query_norm results seen item) as (seen' & -> & Hs1 & Hs2).
    rewrite IH by done. rewrite <- app_assoc. do 2 f_equal.
    apply flat_map_ext_elem. intros item' Hin. apply substring_hits_ext.
    split; [|by auto].
    intros [?|Heq]%Hs2; [done|]. exfalso. apply Hk. rewrite <- Heq.
    by apply list_elem_of_fmap_2.
Qed.

Lemma word_hits_ext reg query_norm threshold seen seen' nm :
  (nm ∈ seen ↔ nm ∈ seen') →
  word_hits reg query_norm threshold seen nm = word_hits reg query_norm threshold seen' nm.
Proof. unfold word_hits. intros H. do 2 case_decide; tauto. Qed.

Lemma scoring_step_spec reg query_norm threshold results seen nm :
  is_Some (PyDict.get (name_to_sponsors reg) nm) →
  ∃ seen', scoring_step reg query_norm threshold (results, seen) nm
           = Ok (results ++ word_hits reg query_norm threshold seen nm, seen')
           ∧ (∀ x, x ∈ seen → x ∈ seen')
           ∧ (∀ x, x ∈ seen' → x ∈ seen ∨ x = nm).
Proof.
  intros [sps Hsps]. unfold scoring_step, word_hits, PyDict.item. rewrite Hsps. simpl.
  case_decide.
  - exists seen. rewrite app_nil_r. auto.
  - destruct (geq _ _).
    + eexists; split_and!; [done|intros x ?; apply elem_of_union; by right|].
      intros x [?%elem_of_singleton|?]%elem_of_union; auto.
    + exists seen. rewrite app_nil_r. auto.
Qed.

Lemma scoring_fold reg query_norm threshold cands results seen :
  NoDup cands →
  (∀ nm, nm ∈ cands → is_Some (PyDict.get (name_to_sponsors reg) nm)) →
  ∃ seen', scoring_stage reg query_norm threshold cands (results, seen)
           = Ok (results ++ flat_map (word_hits reg query_norm threshold seen) cands, seen').
Proof.
  revert results seen; induction cands as [|nm cands IH]; intros results seen;
    cbn [scoring_stage flat_map].
  - intros _ _. exists seen. by rewrite app_nil_r.
  - intros [Hk Hnd]%NoDup_cons Hkeys.
    destruct (scoring_step_spec reg query_norm threshold results seen nm)
      as (seen' & -> & Hs1 & Hs2); [apply Hkeys; left|].
    simpl. destruct (IH (results ++ word_hits reg query_norm threshold seen nm) seen')
      as (seen'' & ->); [done|intros; apply Hkeys; by right|].
    exists seen''. rewrite <- app_assoc.
    rewrite (flat_map_ext_elem (word_hits reg query_norm threshold seen')
               (word_hits reg query_norm threshold seen)); [done|].
    intros nm' Hin. apply word_hits_ext.
    split; [|by auto].
    intros [?|Heq]%Hs2; [done|]. exfalso. apply Hk. by rewrite <- Heq.
Qed.

Lemma candidate_stage_index reg words cands nm :
  nm ∈ fold_left (candidate_step reg) words cands →
  nm ∈ cands ∨ ∃ w names, word_index reg !! w = Some names ∧ nm ∈ names.
Proof.
  revert cands; induction words as [|w words IH]; intros cands; simpl; [auto|].
  intros [Hin|?]%IH; [|by right]. unfold candidate_step in Hin.
  destruct (word_index reg !! w) as [names|] eqn:Hw; [|by left].
  apply elem_of_union in Hin as [?|?]; [by left|right; eauto].
Qed.

(** On a registry that satisfies the invariant no stage raises, and the
    matcher sorts the hits of its three scoring stages. *)
Lemma ranked_wf reg query threshold :
  wf_registry reg → ranked reg query threshold = Ok (sort_desc (unsorted reg query threshold)).
Proof.
  intros Hwf. unfold ranked, unsorted.
  set (query_norm := _normalize query).
  fold (query_words_of query_norm).
  destruct (exact_stage reg query_norm) as [results1 seen1] eqn:H1.
  destruct (substring_stage reg query_norm (results1, seen1)) as [results2 seen2] eqn:H2.
  destruct (scoring_fold reg query_norm threshold
              (elements (candidate_stage reg (query_words_of query_norm))) results2 seen2)
    as (seen4 & ->).
  - apply NoDup_elements.
  - intros nm [Hin|(w & names & Hw & Hin)]%elem_of_elements%candidate_stage_index.
    + by apply not_elem_of_empty in Hin.
    + eapply wf_words; eauto.
  - simpl. do 2 f_equal.
    unfold all_word_hits, substring_seen, all_substring_hits, exact_hits, exact_seen.
    rewrite H1, H2. simpl. rewrite app_assoc. f_equal.
    change results2 with (fst (results2, seen2)). rewrite <- H2.
    unfold substring_stage. rewrite substring_fold by apply Hwf. done.
Qed.

Lemma ranked_loaded rows query threshold :
  ranked (_load_data rows) query threshold
  = Ok (sort_desc (unsorted (_load_data rows) query threshold)).
Proof. apply ranked_wf, load_data_wf. Qed.

Lemma search_loaded rows query threshold max_results :
  search (_load_data rows) query threshold max_results
  = Ok (slice_to max_results (sort_desc (unsorted (_load_data rows) query threshold))).
Proof. unfold search. by rewrite ranked_loaded. Qed.

End stages.

(** ** The stable sort by decreasing score, and the cut *)

Section sorting.
Implicit Types (x y : Match) (l : list Match).

Lemma Qle_bool_false (a b : Q) : Qle_bool a b = false → (b <= a)%Q.
Proof.
  intros H. destruct (Qlt_le_dec b a) as [Hlt|Hle].
  - by apply Qlt_le_weak.
  - apply Qle_bool_iff in Hle. congruence.
Qed.

Lemma insert_desc_perm x l : insert_desc x l ≡ₚ x :: l.
Proof.
  induction l as [|y l IH]; simpl; [done|].
  destruct (Qle_bool _ _); [done|]. rewrite IH. apply Permutation_swap.
Qed.

Lemma sort_desc_perm l : sort_desc l ≡ₚ l.
Proof.
  induction l as [|x l IH]; simpl; [done|].
  rewrite insert_desc_perm. by rewrite IH.
Qed.

Lemma elem_of_sort_desc x l : x ∈ sort_desc l ↔ x ∈ l.
Proof. by rewrite sort_desc_perm. Qed.

Lemma length_sort_desc l : length (sort_desc l) = length l.
Proof. by rewrite sort_desc_perm. Qed.

Lemma insert_desc_sorted x l : sorted_desc l → sorted_desc (insert_desc x l).
Proof.
  unfold sorted_desc. induction 1 as [|y l Hl IH Hy]; simpl.
  - repeat constructor.
  - destruct (Qle_bool (score_of y) (score_of x)) eqn:Hc.
    + apply Qle_bool_iff in Hc. constructor; [by constructor|].
      constructor; [done|].
      eapply Forall_impl; [exact Hy|]. intros z Hz. simpl in Hz. eapply Qle_trans; eassumption.
    + apply Qle_bool_false in Hc. constructor; [done|].
      rewrite insert_desc_perm. by constructor.
Qed.

Lemma sort_desc_sorted l : sorted_desc (sort_desc l).
Proof.
  induction l as [|x l IH]; simpl; [constructor|]. by apply insert_desc_sorted.
Qed.

(** A match that no other outscores stays in front. *)
Lemma insert_desc_top x l :
  Forall (λ y, (score_of y <= score_of x)%Q) l → insert_desc x l = x :: l.
Proof.
  destruct 1 as [|y l Hy _]; simpl; [done|].
  apply Qle_bool_iff in Hy. by rewrite Hy.
Qed.

Lemma sort_desc_top s sps l :
  Forall (λ y, (score_of y <= s)%Q) l →
  sort_desc (scored s sps ++ l) = scored s sps ++ sort_desc l.
Proof.
  intros Hl. induction sps as [|sp sps IH]; simpl; [done|].
  fold (sort_desc (scored s sps ++ l)). rewrite IH.
  apply insert_desc_top. apply Forall_app. split.
  - apply Forall_forall. intros y (sp' & -> & _)%list_elem_of_fmap. simpl. apply Qle_refl.
  - by rewrite sort_desc_perm.
Qed.

(** In a sorted list the matches that reach a score form a prefix. *)
Lemma sorted_desc_prefix s l :
  sorted_desc l → filter (λ m, geq (score_of m) s = true) l = take (count_at_least s l) l.
Proof.
  unfold count_at_least, sorted_desc. induction 1 as [|y l Hl IH Hy]; [done|].
  rewrite filter_cons. case_decide as Hc; simpl.
  - by rewrite <- IH.
  - assert (filter (λ m, geq (score_of m) s = true) l = []) as ->; [|done].
    apply filter_none. intros z Hz Hzs.
    rewrite Forall_forall in Hy. specialize (Hy z Hz). simpl in Hy.
    apply Hc. unfold geq in *. apply Qle_bool_iff. apply Qle_bool_iff in Hzs.
    eapply Qle_trans; eassumption.
Qed.

Lemma sorted_desc_take x l n :
  sorted_desc l → x ∈ l → count_at_least (score_of x) l ≤ n → x ∈ take n l.
Proof.
  intros Hs Hx Hn.
  assert (x ∈ take (count_at_least (score_of x) l) l) as Hin.
  - rewrite <- sorted_desc_prefix by done. apply list_elem_of_filter. split; [|done].
    unfold geq. apply Qle_bool_iff, Qle_refl.
  - apply list_elem_of_lookup in Hin as [i Hi].
    apply lookup_take_Some in Hi as [Hi Hlt].
    apply list_elem_of_lookup. exists i. apply lookup_take_Some. split; [done|lia].
Qed.

Lemma slice_to_nonneg {A : Type} (n : Z) (l : list A) :
  (0 ≤ n)%Z → slice_to n l = take (Z.to_nat n) l.
Proof. intros H. unfold slice_to. by rewrite decide_True. Qed.

Lemma slice_to_length_mono {A : Type} (n : Z) (l1 l2 : list A) :
  length l1 ≤ length l2 → length (slice_to n l1) ≤ length (slice_to n l2).
Proof. unfold slice_to. intros H. case_decide; rewrite !length_take; lia. Qed.

End sorting.


(** ** Scores never exceed 1 *)

Section scores.

Lemma py_max_le (a b c : Q) : (a <= c)%Q → (b <= c)%Q → (py_max a b <= c)%Q.
Proof. unfold py_max. by destruct (Qle_bool b a). Qed.

Lemma simple_similarity_le_1 a b : (_simple_similarity a b <= 1)%Q.
Proof.
  unfold _simple_similarity. case_decide; [done|]. case_decide as Hu; [|done].
  set (A := word_set (_normalize a)) in *. set (B := word_set (_normalize b)) in *.
  assert (size (A ∩ B) ≤ size (A ∪ B)) as Hle.
  { apply subseteq_size. intros x [? _]%elem_of_intersection. apply elem_of_union. by left. }
  assert (Z.pos (Pos.of_nat (size (A ∪ B))) = Z.of_nat (size (A ∪ B))) as Hpos.
  { rewrite <- positive_nat_Z. rewrite Nat2Pos.id by lia. done. }
  unfold Qle. cbn [Qnum Qden]. rewrite Hpos. lia.
Qed.

Lemma boost_pair_le_1 qt score nt : (score <= 1)%Q → (boost_pair qt score nt <= 1)%Q.
Proof.
  intros H. unfold boost_pair.
  assert ((if PyStr.startswith nt qt || PyStr.startswith qt nt
           then py_max score 0.7 else score) <= 1)%Q as H1.
  { destruct (_ || _); [|done]. by apply py_max_le. }
  destruct (_ && _); [|done]. by apply py_max_le.
Qed.

Lemma boost_token_le_1 name_tokens score qt :
  (score <= 1)%Q → (boost_token name_tokens score qt <= 1)%Q.
Proof.
  unfold boost_token. revert score.
  induction name_tokens as [|nt nts IH]; intros score H; simpl; [done|].
  by apply IH, boost_pair_le_1.
Qed.

Lemma candidate_score_le_1 query_norm nm : (candidate_score query_norm nm <= 1)%Q.
Proof.
  unfold candidate_score.
  generalize (simple_similarity_le_1 query_norm nm).
  generalize (_simple_similarity query_norm nm).
  induction (elements (word_set query_norm)) as [|qt qts IH]; intros score H; simpl; [done|].
  by apply IH, boost_token_le_1.
Qed.

Lemma substring_hits_le_1 query_norm seen item :
  Forall (λ m, (score_of m <= 1)%Q) (substring_hits query_norm seen item).
Proof.
  unfold substring_hits, substring_score. apply Forall_forall. intros m.
  case_decide; [by intros ?%elem_of_nil|].
  destruct (PyStr.contains _ _); [|destruct (_ && _)];
    [intros (? & -> & _)%list_elem_of_fmap; done..|by intros ?%elem_of_nil].
Qed.

Lemma word_hits_le_1 reg query_norm threshold seen nm :
  Forall (λ m, (score_of m <= 1)%Q) (word_hits reg query_norm threshold seen nm).
Proof.
  unfold word_hits. apply Forall_forall. intros m.
  case_decide; [by intros ?%elem_of_nil|].
  destruct (geq _ _); [|by intros ?%elem_of_nil].
  intros (? & -> & _)%list_elem_of_fmap. apply candidate_score_le_1.
Qed.

Lemma Forall_flat_map {A B : Type} (P : B → Prop) (f : A → list B) (l : list A) :
  (∀ x, Forall P (f x)) → Forall P (flat_map f l).
Proof.
  intros H. induction l as [|x l IH]; simpl; [constructor|]. apply Forall_app. auto.
Qed.

End scores.

(** ** The exact stage *)

Section exact.

Lemma first_by_name_covers seen bucket r :
  r ∈ bucket → name r ∉ seen → ∃ r', r' ∈ first_by_name seen bucket ∧ name r' = name r.
Proof.
  revert seen; induction bucket as [|r0 bucket IH]; intros seen; simpl.
  - by intros ?%elem_of_nil.
  - intros [->|Hin]%elem_of_cons Hseen.
    + rewrite decide_False by done. exists r0. split; [left|done].
    + case_decide as H0; [by apply IH|].
      destruct (decide (name r0 = name r)) as [Heq|Hne].
      * exists r0. split; [left|done].
      * destruct (IH ({[name r0]} ∪ seen) Hin) as (r' & Hr' & Hn).
        { intros [?%elem_of_singleton|?]%elem_of_union; congruence. }
        exists r'. split; [by right|done].
Qed.

Lemma exact_hits_bucket reg query_norm bucket :
  PyDict.get (name_to_sponsors reg) query_norm = Some bucket →
  exact_hits reg query_norm = scored 1 (first_by_name ∅ bucket).
Proof.
  intros H. unfold exact_hits, exact_stage. rewrite H. by rewrite exact_fold.
Qed.

Lemma exact_seen_names reg query_norm x :
  x ∈ exact_seen reg query_norm →
  ∃ bucket r, PyDict.get (name_to_sponsors reg) query_norm = Some bucket
              ∧ r ∈ bucket ∧ name r = x.
Proof.
  unfold exact_seen, exact_stage.
  destruct (PyDict.get (name_to_sponsors reg) query_norm) as [bucket|]; simpl.
  - intros [?|Hin]%exact_fold_seen; [set_solver|].
    apply list_elem_of_fmap in Hin as (r & -> & Hr). eauto.
  - set_solver.
Qed.

(** An indexed name other than the normalized query is not marked by the
    exact stage. *)
Lemma exact_seen_other reg query_norm nm bucket :
  wf_registry reg →
  PyDict.get (name_to_sponsors reg) nm = Some bucket → bucket ≠ [] →
  nm ≠ query_norm → nm ∉ exact_seen reg query_norm.
Proof.
  intros Hwf Hnm Hne Hdiff (bucket' & r' & Hq & Hr' & Hname)%exact_seen_names.
  destruct bucket as [|r bucket]; [done|].
  assert (_normalize (name r) = nm) as Hr by (eapply wf_bucket; eauto; left).
  assert (_normalize (name r') = query_norm) as Hq' by (eapply wf_bucket; eauto).
  apply Hdiff. rewrite <- Hq', Hname, <- Hr. by rewrite normalize_idempotent.
Qed.

Lemma prefix_of_chars_refl l : PyStr.prefix_of_chars l l = true.
Proof. induction l as [|c l IH]; simpl; [done|]. by rewrite bool_decide_eq_true_2. Qed.

Lemma contains_refl w : PyStr.contains w w = true.
Proof.
  unfold PyStr.contains. destruct (PyStr.chars w) as [|c l] eqn:H; [done|].
  cbn [PyStr.occurs_in_chars]. by rewrite prefix_of_chars_refl.
Qed.

Lemma substring_fold_seen query_norm items results seen x :
  x ∈ snd (fold_left (substring_step query_norm) items (results, seen))
  ↔ x ∈ seen ∨ ∃ sps, (x, sps) ∈ items ∧ is_Some (substring_score query_norm x).
Proof.
  revert results seen; induction items as [|[nm sps] items IH]; intros results seen;
    cbn [fold_left].
  - simpl. split; [by left|]. intros [?|(? & ?%elem_of_nil & _)]; done.
  - setoid_rewrite elem_of_cons.
    unfold substring_step at 2. unfold substring_score.
    case_decide as Hseen.
    + rewrite IH. split; [naive_solver|].
      intros [?|(sps' & [[= -> ->]|?] & Hs)]; [by left|by left|right; eauto].
    + destruct (PyStr.contains nm query_norm) eqn:Hc.
      * rewrite IH, elem_of_union, elem_of_singleton. split.
        -- intros [[->|?]|(sps' & ? & ?)]; [|by left|right; eauto].
           right. exists sps. split; [by left|]. unfold substring_score. rewrite Hc. eauto.
        -- intros [?|(sps' & [[= -> ->]|?] & Hs)]; [by left; right|by left; left|right; eauto].
      * destruct (bool_decide _ && PyStr.contains query_norm nm) eqn:Hc2.
        -- rewrite IH, elem_of_union, elem_of_singleton. split.
           ++ intros [[->|?]|(sps' & ? & ?)]; [|by left|right; eauto].
              right. exists sps. split; [by left|].
              unfold substring_score. rewrite Hc, Hc2. eauto.
           ++ intros [?|(sps' & [[= -> ->]|?] & Hs)];
                [by left; right|by left; left|right; eauto].
        -- rewrite IH. split; [naive_solver|].
           intros [?|(sps' & [[= -> ->]|?] & Hs)]; [by left| |right; eauto].
           unfold substring_score in Hs. rewrite Hc, Hc2 in Hs. by destruct Hs.
Qed.

(** The exact stage keeps one record per company name. *)
Lemma first_by_name_NoDup seen bucket :
  NoDup (map name (first_by_name seen bucket))
  ∧ ∀ r, r ∈ first_by_name seen bucket → name r ∉ seen.
Proof.
  revert seen; induction bucket as [|r0 bucket IH]; intros seen; simpl.
  - split; [constructor|by intros r ?%elem_of_nil].
  - case_decide as H0; [apply IH|].
    destruct (IH ({[name r0]} ∪ seen)) as [Hnd Hout]. split.
    + cbn [map]. apply NoDup_cons. split; [|done].
      intros (r & Hn & Hr)%list_elem_of_fmap. apply (Hout r Hr). set_solver.
    + intros r [->|Hr]%elem_of_cons; [done|].
      intros Hs. apply (Hout r Hr). set_solver.
Qed.

(** Past the exact stage, a record stored under the normalized query is
    scored by the substring stage only, with 0.9. *)
Lemma later_hits_of_exact_bucket reg query_norm threshold bucket r score :
  wf_registry reg →
  PyDict.get (name_to_sponsors reg) query_norm = Some bucket →
  (r, score) ∈ all_substring_hits reg query_norm ++ all_word_hits reg query_norm threshold →
  _normalize (name r) = query_norm →
  score = 0.9%Q.
Proof.
  intros Hwf Hb Hin Hr.
  assert (substring_score query_norm query_norm = Some 0.9%Q) as Hself.
  { unfold substring_score. by rewrite contains_refl. }
  apply elem_of_app in Hin as [Hin|Hin].
  - apply elem_of_flat_map in Hin as ([nm sps] & Hitem & Hin).
    unfold substring_hits in Hin. cbn [fst snd] in Hin.
    case_decide; [by apply elem_of_nil in Hin|].
    destruct (substring_score query_norm nm) as [s|] eqn:Hs; [|by apply elem_of_nil in Hin].
    apply list_elem_of_fmap in Hin as (r' & [= <- ->] & Hr').
    assert (_normalize (name r) = nm) as Hnm.
    { eapply wf_bucket; [done| |done]. apply elem_get_Some; [apply Hwf|done]. }
    rewrite Hr in Hnm. subst nm. congruence.
  - exfalso. apply elem_of_flat_map in Hin as (nm & _ & Hin).
    unfold word_hits in Hin.
    case_decide as Hseen; [by apply elem_of_nil in Hin|].
    destruct (geq _ _); [|by apply elem_of_nil in Hin].
    destruct (PyDict.get (name_to_sponsors reg) nm) as [b|] eqn:Hnm;
      [|by apply elem_of_nil in Hin].
    apply list_elem_of_fmap in Hin as (r' & [= <- _] & Hr').
    assert (_normalize (name r) = nm) as Heq by (eapply wf_bucket; eauto).
    rewrite Hr in Heq. subst nm. apply Hseen.
    unfold substring_seen, substring_stage.
    destruct (exact_stage reg query_norm) as [res1 seen1].
    apply substring_fold_seen. right. exists bucket. split.
    + by apply get_Some_elem.
    + rewrite Hself. eauto.
Qed.

End exact.

(** ** The claims on the matcher *)

(** The first step of the end-to-end scenario of the specification. *)
Example search_barclays :
  search (_load_data [barclays_row]) "barclays" 0.5%Q 5 = Ok [(barclays, 0.9%Q)].
Proof. vm_compute. reflexivity. Qed.

(** C1, as the code has it. When the normalized query equals the normalized
    name of a registry entry, [search] returns at the head of its result,
    each with score 1.0 and in the order of their bucket, the records
    stored under that name that are the first to carry their company name,
    one for each company name of the bucket, cut to [max_results]; the
    company name of the entry is carried by one of them. Every entry after
    this head for a record stored under that name has the score 0.9: a
    company name that repeats an earlier one of the bucket brings no entry
    with score 1.0. *)
Theorem exact_match_heads_results rows query threshold max_results r :
  r ∈ sponsors (_load_data rows) →
  _normalize query = _normalize (name r) →
  ∃ bucket rest r',
    PyDict.get (name_to_sponsors (_load_data rows)) (_normalize query) = Some bucket
    ∧ r ∈ bucket
    ∧ r' ∈ first_by_name ∅ bucket ∧ name r' = name r
    ∧ NoDup (map name (first_by_name ∅ bucket))
    ∧ search (_load_data rows) query threshold max_results
      = Ok (slice_to max_results (scored 1 (first_by_name ∅ bucket) ++ rest))
    ∧ ∀ r0 score,
        (r0, score) ∈ rest → _normalize (name r0) = _normalize query → score = 0.9%Q.
Proof.
  intros Hr Hq.
  pose proof (load_data_wf rows) as Hwf.
  destruct (wf_sponsors _ Hwf r Hr) as (bucket & Hb & Hin).
  rewrite <- Hq in Hb.
  destruct (first_by_name_covers ∅ bucket r Hin) as (r' & Hr' & Hn); [set_solver|].
  exists bucket,
    (sort_desc (all_substring_hits (_load_data rows) (_normalize query)
                ++ all_word_hits (_load_data rows) (_normalize query) threshold)), r'.
  split_and!; [done..|apply first_by_name_NoDup| |].
  - rewrite search_loaded. unfold unsorted.
    rewrite (exact_hits_bucket _ _ _ Hb), sort_desc_top; [done|].
    apply Forall_app. split; apply Forall_flat_map; intros x.
    + apply substring_hits_le_1.
    + apply word_hits_le_1.
  - intros r0 score Hrest Hr0. rewrite elem_of_sort_desc in Hrest.
    exact (later_hits_of_exact_bucket _ _ threshold bucket r0 score Hwf Hb Hrest Hr0).
Qed.

Lemma exact_match_heads_results_witness :
  ∃ bucket rest r',
    PyDict.get (name_to_sponsors (_load_data [acme_london_row; acme_leeds_row]))
      (_normalize "ACME Ltd.") = Some bucket
    ∧ acme_leeds ∈ bucket
    ∧ r' ∈ first_by_name ∅ bucket ∧ name r' = name acme_leeds
    ∧ NoDup (map name (first_by_name ∅ bucket))
    ∧ search (_load_data [acme_london_row; acme_leeds_row]) "ACME Ltd." 1 10
      = Ok (slice_to 10 (scored 1 (first_by_name ∅ bucket) ++ rest))
    ∧ ∀ r0 score,
        (r0, score) ∈ rest → _normalize (name r0) = _normalize "ACME Ltd." → score = 0.9%Q.
Proof.
  apply (exact_match_heads_results [acme_london_row; acme_leeds_row] "ACME Ltd." 1 10
           acme_leeds).
  - vm_compute. right. left.
  - reflexivity.
Defined.

(** C1 as stated fails: of two records with one company name under the
    normalized name, the second is not returned with score 1.0. *)
Lemma exact_match_skips_repeated_name :
  acme_leeds ∈ sponsors (_load_data [acme_london_row; acme_leeds_row])
  ∧ _normalize (name acme_leeds) = "acme ltd"
  ∧ search (_load_data [acme_london_row; acme_leeds_row]) "acme ltd" 1 10
    = Ok [(acme_london, 1%Q); (acme_london, 0.9%Q); (acme_leeds, 0.9%Q)]
  ∧ ¬ ∃ score, (score == 1)%Q
      ∧ (acme_leeds, score) ∈ [(acme_london, 1%Q); (acme_london, 0.9%Q); (acme_leeds, 0.9%Q)].
Proof.
  split_and!.
  - vm_compute. right. left.
  - reflexivity.
  - vm_compute. reflexivity.
  - intros (score & Hs & Hin).
    repeat (apply elem_of_cons in Hin as [Hin|Hin]); try discriminate.
    + injection Hin as ->. discriminate.
    + by apply elem_of_nil in Hin.
Qed.

(** A name that the exact stage has not marked and that the substring
    stage scores has all its records in the ranked list with that score,
    whatever the threshold; [search] returns them as soon as [max_results]
    covers the matches with that score or more. *)
Lemma substring_hit_ranked rows query threshold nm bucket r score :
  PyDict.get (name_to_sponsors (_load_data rows)) nm = Some bucket →
  r ∈ bucket →
  nm ≠ _normalize query →
  substring_score (_normalize query) nm = Some score →
  ∃ full,
    ranked (_load_data rows) query threshold = Ok full
    ∧ (r, score) ∈ full
    ∧ ∀ max_results,
        (Z.of_nat (count_at_least score full) ≤ max_results)%Z →
        ∃ results, search (_load_data rows) query threshold max_results = Ok results
                   ∧ (r, score) ∈ results.
Proof.
  intros Hb Hr Hne Hscore.
  pose proof (load_data_wf rows) as Hwf.
  eexists. split; [apply ranked_loaded|].
  assert ((r, score) ∈ sort_desc (unsorted (_load_data rows) query threshold)) as Hin.
  { apply elem_of_sort_desc. unfold unsorted. rewrite !elem_of_app. right. left.
    apply elem_of_flat_map. exists (nm, bucket). split; [by apply get_Some_elem|].
    unfold substring_hits. simpl. rewrite decide_False, Hscore.
    - by apply (list_elem_of_fmap_2 (λ sponsor, (sponsor, score))).
    - eapply exact_seen_other; eauto. intros ->. by apply elem_of_nil in Hr. }
  split; [done|].
  intros max_results Hmax. rewrite search_loaded. eexists. split; [done|].
  rewrite slice_to_nonneg by lia.
  apply sorted_desc_take; [apply sort_desc_sorted|done|]. simpl. lia.
Qed.

(** C2, as the code has it. When the normalized query is a substring of an
    indexed name other than itself, every record of that name is in the
    ranked list with score 0.9, whatever the threshold, and [search]
    returns it as soon as [max_results] covers the matches that score 0.9
    or more. *)
Theorem substring_match_ranked rows query threshold nm bucket r :
  PyDict.get (name_to_sponsors (_load_data rows)) nm = Some bucket →
  r ∈ bucket →
  PyStr.contains nm (_normalize query) = true →
  nm ≠ _normalize query →
  ∃ full,
    ranked (_load_data rows) query threshold = Ok full
    ∧ (r, 0.9%Q) ∈ full
    ∧ ∀ max_results,
        (Z.of_nat (count_at_least 0.9 full) ≤ max_results)%Z →
        ∃ results, search (_load_data rows) query threshold max_results = Ok results
                   ∧ (r, 0.9%Q) ∈ results.
Proof.
  intros Hb Hr Hsub Hne. eapply substring_hit_ranked; eauto.
  unfold substring_score. by rewrite Hsub.
Qed.

Lemma substring_match_ranked_witness :
  ∃ full,
    ranked (_load_data [barclays_row]) "Barclays" 0.5 = Ok full
    ∧ (barclays, 0.9%Q) ∈ full
    ∧ ∀ max_results,
        (Z.of_nat (count_at_least 0.9 full) ≤ max_results)%Z →
        ∃ results, search (_load_data [barclays_row]) "Barclays" 0.5 max_results = Ok results
                   ∧ (barclays, 0.9%Q) ∈ results.
Proof.
  apply (substring_match_ranked [barclays_row] "Barclays" 0.5 "barclays bank plc" [barclays]).
  - reflexivity.
  - left.
  - reflexivity.
  - discriminate.
Defined.

(** C2 as stated fails: [max_results] cuts the list, here to its first
    match, and the records of the second name that contains the query are
    not returned. *)
Lemma substring_match_cut_by_max_results :
  PyDict.get (name_to_sponsors (_load_data [barclays_row; barclays_capital_row]))
    "barclays capital" = Some [barclays_capital]
  ∧ PyStr.contains "barclays capital" (_normalize "barclays") = true
  ∧ (0.5 <= 0.9)%Q
  ∧ search (_load_data [barclays_row; barclays_capital_row]) "barclays" 0.5 1
    = Ok [(barclays, 0.9%Q)]
  ∧ ¬ ∃ score, (barclays_capital, score) ∈ [(barclays, 0.9%Q)].
Proof.
  split_and!; [reflexivity..|discriminate|vm_compute; reflexivity|].
  intros (score & [Hin|Hin]%elem_of_cons); [discriminate|by apply elem_of_nil in Hin].
Qed.

(** C3: a query made of punctuation passes the callers' test for an empty
    query, normalizes to the empty string, which is a substring of every
    indexed name, and [search] returns the records of the registry with
    score 0.9 instead of an empty list. *)
Theorem empty_query_returns_records :
  _normalize "!!!" = ""
  ∧ search (_load_data [barclays_row]) "!!!" 0.5 10 = Ok [(barclays, 0.9%Q)].
Proof. split; [reflexivity|vm_compute; reflexivity]. Qed.

(** What C3 shows on one registry holds on all: a query that normalizes to
    the empty string puts every record indexed under a non-empty name in
    the ranked list, with score 0.9. *)
Lemma empty_query_ranks_every_record rows query threshold nm bucket r :
  _normalize query = "" →
  PyDict.get (name_to_sponsors (_load_data rows)) nm = Some bucket →
  r ∈ bucket →
  nm ≠ "" →
  ∃ full, ranked (_load_data rows) query threshold = Ok full ∧ (r, 0.9%Q) ∈ full.
Proof.
  intros Hq Hb Hr Hne.
  destruct (substring_hit_ranked rows query threshold nm bucket r 0.9)
    as (full & Hfull & Hin & _); [done|done|by rewrite Hq| |by eauto].
  rewrite Hq. unfold substring_score, PyStr.contains. simpl.
  by destruct (PyStr.chars nm).
Qed.

(** C4: the exact stage marks the company name as written in the file, the
    later stages test the normalized name; a name resolved by the exact
    stage is scored again by the substring stage, and its record is
    returned twice, with scores 1.0 and 0.9. *)
Theorem exact_match_scored_again :
  search (_load_data [barclays_row]) "Barclays Bank PLC" 0.5 10
  = Ok [(barclays, 1%Q); (barclays, 0.9%Q)].
Proof. vm_compute. reflexivity. Qed.

Lemma word_hits_length_mono reg query_norm t1 t2 seen nm :
  (t1 <= t2)%Q →
  length (word_hits reg query_norm t2 seen nm) ≤ length (word_hits reg query_norm t1 seen nm).
Proof.
  intros Ht. unfold word_hits, geq. case_decide; [done|].
  destruct (Qle_bool t2 _) eqn:H2; [|simpl; lia].
  apply Qle_bool_iff in H2.
  assert (Qle_bool t1 (candidate_score query_norm nm) = true) as ->; [|done].
  apply Qle_bool_iff. eapply Qle_trans; eassumption.
Qed.

(** C5. Raising the threshold never increases the number of results. *)
Theorem threshold_monotone rows query t1 t2 max_results :
  (t1 <= t2)%Q →
  ∃ results1 results2,
    search (_load_data rows) query t1 max_results = Ok results1
    ∧ search (_load_data rows) query t2 max_results = Ok results2
    ∧ length results2 ≤ length results1.
Proof.
  intros Ht. rewrite !search_loaded. do 2 eexists. split_and!; [done..|].
  apply slice_to_length_mono. rewrite !length_sort_desc. unfold unsorted.
  rewrite !length_app.
  assert (length (all_word_hits (_load_data rows) (_normalize query) t2)
          ≤ length (all_word_hits (_load_data rows) (_normalize query) t1)); [|lia].
  apply flat_map_length_le. intros nm _. by apply word_hits_length_mono.
Qed.

Lemma threshold_monotone_witness :
  ∃ results1 results2,
    search (_load_data [barclays_row]) "bank of barclays" 0.5 10 = Ok results1
    ∧ search (_load_data [barclays_row]) "bank of barclays" 0.8 10 = Ok results2
    ∧ length results2 ≤ length results1.
Proof.
  apply (threshold_monotone [barclays_row] "bank of barclays" 0.5 0.8 10).
  discriminate.
Defined.

(** C6. [is_sponsor] never raises; it returns a record exactly when the
    search with [max_results = 1] has a top result whose score reaches the
    threshold, and then that record; otherwise it returns [None]. *)
Theorem is_sponsor_top_result rows company_name threshold :
  (∀ r, is_sponsor (_load_data rows) company_name threshold = Ok (Some r)
        ↔ ∃ score rest,
            search (_load_data rows) company_name threshold 1 = Ok ((r, score) :: rest)
            ∧ (threshold <= score)%Q)
  ∧ (is_sponsor (_load_data rows) company_name threshold = Ok None
     ∨ ∃ r, is_sponsor (_load_data rows) company_name threshold = Ok (Some r)).
Proof.
  unfold is_sponsor. rewrite search_loaded. simpl.
  destruct (slice_to 1 _) as [|[top score] rest]; simpl.
  - split; [|by left]. intros r. split; [done|]. by intros (? & ? & [=] & _).
  - unfold geq. destruct (Qle_bool threshold score) eqn:Hc.
    + split; [|right; eauto]. intros r. split.
      * intros [= ->]. apply Qle_bool_iff in Hc. eauto.
      * by intros (? & ? & [= -> _ _] & _).
    + split; [|by left]. intros r. split; [done|].
      intros (? & ? & [= _ <- _] & Hle). apply Qle_bool_iff in Hle. congruence.
Qed.


(** ** The deduplicator *)

Section dedup.

Lemma dedup_step_inv seen read m : dedup_inv seen read → dedup_inv (dedup_step seen m) (read ++ [m]).
Proof.
  intros [Hk Hb Ha]. destruct m as [sponsor score]. unfold dedup_step.
  destruct (PyDict.get seen (name sponsor)) as [kept|] eqn:Hg.
  - destruct (Qle_bool score kept.2) eqn:Hc; simpl.
    + apply Qle_bool_iff in Hc. split; [done| |].
      * intros k m Hm. destruct (Hb k m Hm) as (Hn & Hin & Hmax).
        split_and!; [done|apply elem_of_app; by left|].
        intros m' [?| ->%list_elem_of_singleton]%elem_of_app Hn'; [by apply Hmax|].
        simpl in Hn'. assert (Some m = Some kept) as [= ->]; [|done].
        rewrite <- Hm, <- Hg. by rewrite Hn'.
      * intros m [?| ->%list_elem_of_singleton]%elem_of_app; [by apply Ha|].
        simpl. by rewrite Hg.
    + apply Qle_bool_false in Hc. split; [by apply NoDup_keys_set| |].
      * intros k m. destruct (decide (name sponsor = k)) as [<-|Hne].
        -- rewrite get_set_eq. intros [= <-].
           split_and!; [done|apply elem_of_app; right; by apply list_elem_of_singleton|].
           intros m' [Hin| ->%list_elem_of_singleton]%elem_of_app Hn'; [|apply Qle_refl].
           destruct (Hb _ _ Hg) as (_ & _ & Hmax). simpl.
           eapply Qle_trans; [by apply Hmax|done].
        -- rewrite get_set_ne by done. intros Hm.
           destruct (Hb k m Hm) as (Hn & Hin & Hmax).
           split_and!; [done|apply elem_of_app; by left|].
           intros m' [?| ->%list_elem_of_singleton]%elem_of_app Hn'; [by apply Hmax|].
           simpl in Hn'. done.
      * intros m [Hin| ->%list_elem_of_singleton]%elem_of_app.
        -- destruct (decide (name sponsor = name m.1)) as [<-|Hne].
           ++ rewrite get_set_eq. eauto.
           ++ rewrite get_set_ne by done. by apply Ha.
        -- simpl. rewrite get_set_eq. eauto.
  - split; [by apply NoDup_keys_set| |].
    + intros k m. destruct (decide (name sponsor = k)) as [<-|Hne].
      * rewrite get_set_eq. intros [= <-].
        split_and!; [done|apply elem_of_app; right; by apply list_elem_of_singleton|].
        intros m' [Hin| ->%list_elem_of_singleton]%elem_of_app Hn'; [|apply Qle_refl].
        apply Ha in Hin. rewrite Hn', Hg in Hin. by destruct Hin.
      * rewrite get_set_ne by done. intros Hm.
        destruct (Hb k m Hm) as (Hn & Hin & Hmax).
        split_and!; [done|apply elem_of_app; by left|].
        intros m' [?| ->%list_elem_of_singleton]%elem_of_app Hn'; [by apply Hmax|].
        simpl in Hn'. done.
    + intros m [Hin| ->%list_elem_of_singleton]%elem_of_app.
      * destruct (decide (name sponsor = name m.1)) as [<-|Hne].
        -- rewrite get_set_eq. eauto.
        -- rewrite get_set_ne by done. by apply Ha.
      * simpl. rewrite get_set_eq. eauto.
Qed.

Lemma dedup_fold_inv rest seen read :
  dedup_inv seen read → dedup_inv (fold_left dedup_step rest seen) (read ++ rest).
Proof.
  revert seen read; induction rest as [|m rest IH]; intros seen read H; simpl.
  - by rewrite app_nil_r.
  - rewrite cons_middle, app_assoc. by apply IH, dedup_step_inv.
Qed.

Lemma dedup_inv_names seen read :
  dedup_inv seen read → map (λ m : Match, name m.1) (PyDict.values seen) = PyDict.keys seen.
Proof.
  intros [Hk Hb _]. unfold PyDict.values, PyDict.keys. rewrite map_map.
  apply map_ext_in. intros [k m] Hin%list_elem_of_In. simpl.
  apply (Hb k m). by apply elem_get_Some.
Qed.

Lemma elem_of_values {V : Type} (d : PyDict.t V) (v : V) :
  v ∈ PyDict.values d → ∃ k, (k, v) ∈ d.
Proof.
  unfold PyDict.values. intros ([k v'] & -> & Hin)%list_elem_of_fmap. eauto.
Qed.

(** C7. The output of [deduplicate_results] holds one match per company
    name of its input, a match of the input itself, which no match of that
    name in the input outscores, and it is in the order of decreasing
    scores. *)
Theorem deduplicate_keeps_best results :
  let out := deduplicate_results results in
  NoDup (map (λ m : Match, name m.1) out)
  ∧ (∀ m, m ∈ out →
       m ∈ results ∧ ∀ m', m' ∈ results → name m'.1 = name m.1 → (m'.2 <= m.2)%Q)
  ∧ (∀ m, m ∈ results → ∃ m', m' ∈ out ∧ name m'.1 = name m.1)
  ∧ sorted_desc out.
Proof.
  assert (dedup_inv (fold_left dedup_step results []) results) as Hinv.
  { apply (dedup_fold_inv results [] []). split; [constructor|done|].
    by intros m ?%elem_of_nil. }
  unfold deduplicate_results. cbv zeta. split_and!.
  - rewrite sort_desc_perm. erewrite dedup_inv_names by done. apply Hinv.
  - intros m [k Hin]%elem_of_sort_desc%elem_of_values.
    apply elem_get_Some in Hin; [|apply Hinv].
    destruct (dedup_best _ _ Hinv k m Hin) as (<- & ? & ?). done.
  - intros m [m' Hm']%(dedup_all _ _ Hinv).
    exists m'. split.
    + apply elem_of_sort_desc. apply get_Some_elem in Hm'.
      by apply (list_elem_of_fmap_2 snd) in Hm'.
    + by apply (dedup_best _ _ Hinv).
  - apply sort_desc_sorted.
Qed.

End dedup.


(** C8. The scores of the substring stage are fixed, 0.9 and 0.85, and its
    matches enter the ranked list whatever the threshold; so a threshold
    above such a score leaves in the result a match that scores strictly
    less than it. *)
Theorem substring_scores_ignore_threshold rows query threshold nm bucket r score :
  PyDict.get (name_to_sponsors (_load_data rows)) nm = Some bucket →
  r ∈ bucket →
  nm ≠ _normalize query →
  substring_score (_normalize query) nm = Some score →
  (score < threshold)%Q →
  (score = 0.9%Q ∨ score = 0.85%Q)
  ∧ ∃ full,
      ranked (_load_data rows) query threshold = Ok full
      ∧ ∀ max_results,
          (Z.of_nat (count_at_least score full) ≤ max_results)%Z →
          ∃ results m,
            search (_load_data rows) query threshold max_results = Ok results
            ∧ m ∈ results ∧ m = (r, score) ∧ (score_of m < threshold)%Q.
Proof.
  intros Hb Hr Hne Hscore Hlt. split.
  - unfold substring_score in Hscore.
    destruct (PyStr.contains nm _); [left; congruence|].
    destruct (_ && _); [right; congruence|done].
  - destruct (substring_hit_ranked rows query threshold nm bucket r score)
      as (full & Hfull & _ & Hcut); [done..|].
    exists full. split; [done|]. intros max_results Hmax.
    destruct (Hcut max_results Hmax) as (results & Hs & Hin).
    exists results, (r, score). done.
Qed.

Lemma substring_scores_ignore_threshold_witness :
  (0.9 < 0.95)%Q
  ∧ (0.9%Q = 0.9%Q ∨ 0.9%Q = 0.85%Q)
  ∧ ∃ full,
      ranked (_load_data [barclays_row]) "barclays" 0.95 = Ok full
      ∧ ∀ max_results,
          (Z.of_nat (count_at_least 0.9 full) ≤ max_results)%Z →
          ∃ results m,
            search (_load_data [barclays_row]) "barclays" 0.95 max_results = Ok results
            ∧ m ∈ results ∧ m = (barclays, 0.9%Q) ∧ (score_of m < 0.95)%Q.
Proof.
  split; [reflexivity|].
  apply (substring_scores_ignore_threshold [barclays_row] "barclays" 0.95
           "barclays bank plc" [barclays] barclays 0.9).
  - reflexivity.
  - left.
  - discriminate.
  - reflexivity.
  - reflexivity.
Defined.

(** The scenario of C8, evaluated: at threshold 0.95 the search for
    [barclays] returns a match of score 0.9. *)
Example search_below_threshold :
  search (_load_data [barclays_row]) "barclays" 0.95 10 = Ok [(barclays, 0.9%Q)].
Proof. vm_compute. reflexivity. Qed.

(** ** The URL extractor *)

Section extractor.

Variable check : string → bool.

Lemma clean_company_name_valid nm cleaned :
  _clean_company_name nm = Some cleaned →
  2 ≤ PyStr.len cleaned ∧ existsb PyStr.isalpha (PyStr.chars cleaned) = true.
Proof.
  unfold _clean_company_name. case_decide; [done|]. case_decide as Hlen; [done|].
  destruct (existsb _ _) eqn:Halpha; cbn [negb]; [|done].
  intros [= <-]. split; [|done]. apply Nat.nlt_ge, Hlen.
Qed.

Lemma known_company_in_table table domain company :
  known_company_in table domain = Some company → company ∈ PyDict.values table.
Proof.
  induction table as [|[known_domain c] table IH]; simpl; [done|].
  destruct (PyStr.contains domain known_domain).
  - intros [= ->]. left.
  - intros H. right. by apply IH.
Qed.

Lemma cleaned_group_valid m hyphens cleaned :
  cleaned_group m hyphens = Ok (Some cleaned) →
  2 ≤ PyStr.len cleaned ∧ existsb PyStr.isalpha (PyStr.chars cleaned) = true.
Proof.
  unfold cleaned_group. destruct (group m); [|done].
  intros [= H]. by eapply clean_company_name_valid.
Qed.

Lemma pattern_stage_valid patterns url_lower cleaned :
  pattern_stage patterns url_lower = Ok (Some cleaned) →
  2 ≤ PyStr.len cleaned ∧ existsb PyStr.isalpha (PyStr.chars cleaned) = true.
Proof.
  induction patterns as [|[pattern source] patterns IH]; simpl; [done|].
  destruct (Re.search pattern url_lower) as [m|]; [|done].
  destruct (cleaned_group m true) as [[c|]|e] eqn:Hc; cbn [mbind outcome_bind]; [|done..].
  intros [= ->]. by eapply cleaned_group_valid.
Qed.

(** Every name that [extract_company_from_url] returns is a company of the
    known-domain table or has passed the cleaning: it has two characters
    or more, one of them a letter. *)
Lemma extracted_name_known_or_cleaned url company :
  extract_company_from_url check url = Ok (Some company) →
  company ∈ PyDict.values KNOWN_COMPANY_DOMAINS
  ∨ (2 ≤ PyStr.len company ∧ existsb PyStr.isalpha (PyStr.chars company) = true).
Proof.
  unfold extract_company_from_url.
  destruct (urlparse_netloc check url) as [netloc|e]; cbn [mbind outcome_bind]; [|done].
  destruct (known_company (PyStr.lower netloc)) as [c|] eqn:Hk.
  - intros [= ->]. left. exact (known_company_in_table KNOWN_COMPANY_DOMAINS _ _ Hk).
  - destruct (pattern_stage url_patterns (PyStr.lower url)) as [[c|]|e] eqn:Hp;
      cbn [mbind outcome_bind]; [| |done].
    + intros [= ->]. right. by eapply pattern_stage_valid.
    + destruct (subdomain_stage (PyStr.lower netloc)) as [[c|]|e] eqn:Hs;
        cbn [mbind outcome_bind]; [| |done].
      * intros [= ->]. right. unfold subdomain_stage in Hs.
        destruct (Re.rmatch _ _); [|done]. by eapply cleaned_group_valid.
      * unfold refusal_stage. by destruct (existsb _ _).
Qed.

(** C9. A URL that no extraction rule resolves and that holds one of the
    unreliable job-view patterns makes [extract_company_from_url] return
    [None]. *)
Theorem unreliable_url_refused url netloc :
  urlparse_netloc check url = Ok netloc →
  known_company (PyStr.lower netloc) = None →
  pattern_stage url_patterns (PyStr.lower url) = Ok None →
  subdomain_stage (PyStr.lower netloc) = Ok None →
  existsb (λ pattern, PyStr.contains (PyStr.lower url) pattern) unreliable_patterns = true →
  extract_company_from_url check url = Ok None.
Proof.
  intros Hn Hk Hp Hs Hu. unfold extract_company_from_url.
  rewrite Hn. cbn [mbind outcome_bind]. rewrite Hk, Hp. cbn [mbind outcome_bind].
  rewrite Hs. cbn [mbind outcome_bind]. unfold refusal_stage. by rewrite Hu.
Qed.

(** The URL named by C9, whatever the check of bracketed hosts. *)
Example indeed_viewjob_refused :
  extract_company_from_url check "https://uk.indeed.com/viewjob?jk=abc123" = Ok None.
Proof. vm_compute. reflexivity. Qed.

(** C10: [urlparse] raises [ValueError] on a netloc with one bracket only,
    and [extract_company_from_url] lets the exception through instead of
    returning [None]. *)
Theorem extract_raises_on_lone_bracket :
  extract_company_from_url check "http://[" = Raises ValueError.
Proof. vm_compute. reflexivity. Qed.

End extractor.

Lemma unreliable_url_refused_witness :
  extract_company_from_url (λ _, true) "https://uk.indeed.com/viewjob?jk=abc123" = Ok None.
Proof.
  apply (unreliable_url_refused (λ _, true) "https://uk.indeed.com/viewjob?jk=abc123"
           "uk.indeed.com"); vm_compute; reflexivity.
Defined.


(** * Further properties of the code *)

(** ** The normalizer *)

Section normalizer_shape.

Implicit Types (c : ascii) (l : list ascii).

Lemma rstrip_ends_clear p l c : last (PyStr.rstrip_with p l) = Some c → p c = false.
Proof.
  induction l as [|c0 l IH]; simpl; [done|].
  destruct (PyStr.rstrip_with p l) as [|c1 r] eqn:Hr.
  - destruct (p c0) eqn:Hp; simpl; [done|]. by intros [= <-].
  - exact IH.
Qed.

Lemma spaced_space b l c : spaced b l → c ∈ l → PyStr.isspace c = true → c = " "%char.
Proof.
  revert b; induction l as [|c0 l IH]; intros b; simpl; [by intros _ ?%elem_of_nil|].
  intros Hs [->|Hin]%elem_of_cons Hc.
  - rewrite Hc in Hs. by destruct Hs as (_ & -> & _).
  - destruct (PyStr.isspace c0); [destruct Hs as (_ & _ & Hs)|]; eauto.
Qed.

Lemma spaced_no_double b l i :
  spaced b l → l !! i = Some " "%char → l !! S i = Some " "%char → False.
Proof.
  revert b i; induction l as [|c0 l IH]; intros b i; simpl; [done|].
  destruct i as [|i]; simpl.
  - intros Hs [= ->] Hl. simpl in Hs. destruct Hs as (_ & _ & Hs).
    destruct l as [|c1 l]; [done|]. simpl in Hl. injection Hl as ->.
    simpl in Hs. by destruct Hs.
  - intros Hs. destruct (PyStr.isspace c0); [destruct Hs as (_ & _ & Hs)|]; eauto.
Qed.

Lemma kept_class c :
  kept c → (PyStr.isspace c = true → c = " "%char) →
  PyStr.is_lower c || PyStr.is_digit c || bool_decide (c = "_"%char)
  || bool_decide (c = " "%char) = true.
Proof.
  intros [Hk Hl] Hs.
  destruct c as [[] [] [] [] [] [] [] []]; try reflexivity; exfalso;
    first [discriminate Hk | discriminate Hl | discriminate (Hs eq_refl)].
Qed.

Lemma normalize_chars_kept l : Forall kept (normalize_chars l).
Proof.
  apply rstrip_with_Forall, lstrip_with_Forall, collapse_spaces_kept, drop_punctuation_kept.
Qed.

Lemma normalize_chars_spaced l : spaced false (normalize_chars l).
Proof. apply rstrip_spaced. eapply lstrip_spaced, collapse_spaces_spaced. Qed.

(** X1. Normalizing twice is normalizing once. *)
Theorem normalize_twice (s : string) : _normalize (_normalize s) = _normalize s.
Proof. apply normalize_idempotent. Qed.

(** X2. A normalized text holds only lower-case letters, digits,
    underscores and spaces; it neither starts nor ends with a space and no
    two spaces follow each other. *)
Theorem normalize_shape (s : string) :
  let n := PyStr.chars (_normalize s) in
  Forall (λ c, PyStr.is_lower c || PyStr.is_digit c || bool_decide (c = "_"%char)
               || bool_decide (c = " "%char) = true) n
  ∧ head n ≠ Some " "%char
  ∧ last n ≠ Some " "%char
  ∧ ∀ i, n !! i = Some " "%char → n !! S i ≠ Some " "%char.
Proof.
  cbv zeta. unfold _normalize. rewrite chars_str. fold (normalize_chars (PyStr.chars s)).
  set (n := normalize_chars (PyStr.chars s)).
  pose proof (normalize_chars_kept (PyStr.chars s)) as Hk.
  pose proof (normalize_chars_spaced (PyStr.chars s)) as Hs. fold n in Hk, Hs.
  split_and!.
  - apply Forall_forall. intros c Hc. apply kept_class.
    + rewrite Forall_forall in Hk. by apply Hk.
    + by eapply spaced_space.
  - assert (starts_clear PyStr.isspace n) as Hc
      by apply rstrip_starts_clear, lstrip_starts_clear.
    destruct n as [|c n']; simpl; [done|]. intros [= ->]. simpl in Hc. done.
  - intros Hl. unfold n, normalize_chars, PyStr.strip_with in Hl.
    apply rstrip_ends_clear in Hl. discriminate.
  - intros i H1 H2. exact (spaced_no_double _ _ _ Hs H1 H2).
Qed.

End normalizer_shape.

(** ** The loader *)

Section loader_index.

Lemma load_rows_sponsors rows reg :
  sponsors (fold_left load_row rows reg) = sponsors reg ++ omap row_sponsor rows.
Proof.
  revert reg; induction rows as [|row rows IH]; intros reg; simpl.
  - by rewrite app_nil_r.
  - rewrite IH. unfold load_row, row_sponsor.
    case_decide; simpl; [done|]. by rewrite <- app_assoc.
Qed.

(** X3. The registry keeps one record per row whose organisation name is
    not blank, in the order of the file, and drops the other rows. *)
Theorem sponsors_in_file_order rows : sponsors (_load_data rows) = omap row_sponsor rows.
Proof. unfold _load_data. by rewrite load_rows_sponsors. Qed.

Lemma load_row_buckets reg row : buckets_exact reg → buckets_exact (load_row reg row).
Proof.
  intros H nm. unfold load_row. case_decide as Hname; [apply H|].
  set (normalized := _normalize (field (organisation_name row))).
  set (sponsor := mkSponsor _ _ _ _ _).
  unfold records_named. cbn [name_to_sponsors sponsors].
  rewrite filter_app, filter_cons, filter_nil.
  specialize (H nm) as Hnm. unfold records_named in Hnm.
  destruct (decide (normalized = nm)) as [<-|Hne].
  - rewrite file_under_eq, Hnm, decide_True by done.
    destruct (filter _ (sponsors reg)) as [|r b]; done.
  - rewrite file_under_ne, Hnm, decide_False by done. by rewrite app_nil_r.
Qed.

Lemma load_data_buckets rows : buckets_exact (_load_data rows).
Proof.
  unfold _load_data. assert (buckets_exact empty_registry) as H0 by done.
  revert H0. generalize empty_registry.
  induction rows as [|row rows IH]; intros reg H; simpl; [done|].
  by apply IH, load_row_buckets.
Qed.

(** X4. The bucket of a normalized name holds exactly the records of the
    registry whose name normalizes to it, in the order of the file; a name
    without such a record is no key. *)
Theorem bucket_holds_records_named rows nm :
  PyDict.get (name_to_sponsors (_load_data rows)) nm
  = match records_named (_load_data rows) nm with
    | [] => None
    | bucket => Some bucket
    end.
Proof. apply load_data_buckets. Qed.

Lemma index_word_indexed normalized wi word w nm :
  (∃ names, index_word normalized wi word !! w = Some names ∧ nm ∈ names)
  ↔ (∃ names, wi !! w = Some names ∧ nm ∈ names)
    ∨ (nm = normalized ∧ w = word ∧ 2 < PyStr.len w).
Proof.
  unfold index_word. case_decide as Hlen.
  - destruct (decide (w = word)) as [->|Hne].
    + rewrite lookup_insert_eq. split.
      * intros (names & [= <-] & [->%elem_of_singleton|Hin]%elem_of_union); [by right|].
        left. case_decide as Hs.
        -- destruct Hs as [names0 Hs]. rewrite Hs in Hin |- *. eauto.
        -- rewrite lookup_insert_eq in Hin. simpl in Hin. by apply not_elem_of_empty in Hin.
      * intros [(names & Hw & Hin)|(-> & _ & _)].
        -- eexists; split; [done|]. apply elem_of_union. right.
           rewrite decide_True by eauto. by rewrite Hw.
        -- eexists; split; [done|]. apply elem_of_union. left. by apply elem_of_singleton.
    + rewrite lookup_insert_ne by done.
      assert ((if decide (is_Some (wi !! word)) then wi else <[word:=∅]> wi) !! w = wi !! w)
        as -> by (case_decide; [done|by rewrite lookup_insert_ne]).
      split; [by left|]. intros [?|(_ & ? & _)]; done.
  - split; [by left|]. intros [?|(_ & -> & ?)]; done.
Qed.

Lemma index_words_indexed normalized words wi w nm :
  (∃ names, fold_left (index_word normalized) words wi !! w = Some names ∧ nm ∈ names)
  ↔ (∃ names, wi !! w = Some names ∧ nm ∈ names)
    ∨ (nm = normalized ∧ w ∈ words ∧ 2 < PyStr.len w).
Proof.
  revert wi; induction words as [|word words IH]; intros wi; simpl.
  - split; [by left|]. intros [?|(_ & ?%elem_of_nil & _)]; done.
  - rewrite IH, index_word_indexed, elem_of_cons. naive_solver.
Qed.

Lemma file_under_is_Some nts normalized sponsor nm :
  is_Some (PyDict.get (file_under nts normalized sponsor) nm)
  ↔ is_Some (PyDict.get nts nm) ∨ nm = normalized.
Proof.
  destruct (decide (normalized = nm)) as [<-|Hne].
  - rewrite file_under_eq. split; [by right|eauto].
  - rewrite file_under_ne by done. split; [by left|]. intros [?|?]; [done|congruence].
Qed.

Lemma load_row_word_index reg row : word_index_exact reg → word_index_exact (load_row reg row).
Proof.
  intros H w nm. unfold load_row. case_decide as Hname; [apply H|].
  unfold indexed_under. cbn [name_to_sponsors word_index].
  rewrite index_words_indexed, file_under_is_Some.
  specialize (H w nm). unfold indexed_under in H. rewrite H. naive_solver.
Qed.

Lemma load_data_word_index rows : word_index_exact (_load_data rows).
Proof.
  unfold _load_data.
  assert (word_index_exact empty_registry) as H0.
  { intros w nm. unfold indexed_under. simpl. rewrite lookup_empty.
    split; [by intros (? & [=] & _)|by intros ([? [=]] & _)]. }
  revert H0. generalize empty_registry.
  induction rows as [|row rows IH]; intros reg H; simpl; [done|].
  by apply IH, load_row_word_index.
Qed.

(** X5. The word index lists a normalized name under a word exactly when
    the name is a key of the buckets and the word is one of its words,
    longer than two characters. *)
Theorem word_index_lists_words rows w nm :
  indexed_under (_load_data rows) w nm
  ↔ is_Some (PyDict.get (name_to_sponsors (_load_data rows)) nm)
    ∧ w ∈ PyStr.split nm ∧ 2 < PyStr.len w.
Proof. apply load_data_word_index. Qed.

End loader_index.

(** ** The similarity of two names *)

Section similarity.

Lemma ratio_nonneg (i u : nat) : (0 <= Z.of_nat i # Pos.of_nat u)%Q.
Proof. unfold Qle. cbn [Qnum Qden]. lia. Qed.

Lemma ratio_one (i u : nat) : 0 < u → (Z.of_nat i # Pos.of_nat u == 1)%Q ↔ i = u.
Proof.
  intros Hu. unfold Qeq. cbn [Qnum Qden].
  assert (Z.pos (Pos.of_nat u) = Z.of_nat u) as ->.
  { rewrite <- positive_nat_Z. by rewrite Nat2Pos.id by lia. }
  lia.
Qed.

Lemma ratio_zero (i u : nat) : (Z.of_nat i # Pos.of_nat u == 0)%Q ↔ i = 0.
Proof. unfold Qeq. cbn [Qnum Qden]. lia. Qed.

Lemma union_size_pos (A B : gset string) : A ≠ ∅ → 0 < size (A ∪ B).
Proof.
  intros HA. destruct (size (A ∪ B)) eqn:Hs; [|lia].
  apply size_empty_inv in Hs. exfalso. apply HA.
  apply leibniz_equiv. apply empty_union in Hs. apply Hs.
Qed.

(** X6. The similarity is symmetric and lies between 0 and 1. *)
Theorem similarity_symmetric_bounded (a b : string) :
  _simple_similarity a b = _simple_similarity b a
  ∧ (0 <= _simple_similarity a b)%Q ∧ (_simple_similarity a b <= 1)%Q.
Proof.
  split_and!.
  - unfold _simple_similarity.
    set (A := word_set (_normalize a)). set (B := word_set (_normalize b)).
    assert (B ∩ A = A ∩ B) as -> by (apply set_eq; intros x; rewrite !elem_of_intersection; tauto).
    assert (B ∪ A = A ∪ B) as -> by (apply set_eq; intros x; rewrite !elem_of_union; tauto).
    destruct (decide (A = ∅ ∨ B = ∅)), (decide (B = ∅ ∨ A = ∅)); try done; exfalso; tauto.
  - unfold _simple_similarity. case_decide; [done|]. case_decide; [|done].
    apply ratio_nonneg.
  - apply simple_similarity_le_1.
Qed.

(** X7. The similarity is 1 exactly when the two normalized names have the
    same words, and at least one; it is 0 exactly when they have no word
    in common. *)
Theorem similarity_extremes (a b : string) :
  ((_simple_similarity a b == 1)%Q
   ↔ word_set (_normalize a) = word_set (_normalize b) ∧ word_set (_normalize a) ≠ ∅)
  ∧ ((_simple_similarity a b == 0)%Q
     ↔ word_set (_normalize a) ∩ word_set (_normalize b) = ∅).
Proof.
  unfold _simple_similarity.
  set (A := word_set (_normalize a)). set (B := word_set (_normalize b)).
  case_decide as He.
  - split.
    + split; [done|]. intros [Heq Hne]. destruct He as [?|HB]; [done|].
      rewrite <- Heq in HB. done.
    + split; [|done]. intros _. apply set_eq. intros x.
      rewrite elem_of_intersection. destruct He as [->| ->];
        split; [by intros [?%not_elem_of_empty _]|by intros ?%not_elem_of_empty
               |by intros [_ ?%not_elem_of_empty]|by intros ?%not_elem_of_empty].
  - assert (A ≠ ∅) as HA by tauto.
    pose proof (union_size_pos A B HA) as Hu. rewrite decide_True by done.
    split.
    + rewrite ratio_one by done. split.
      * intros Hs. split; [|done].
        assert (A ∩ B = A ∪ B) as Heq.
        { apply set_subseteq_size_eq; [|lia].
          intros x [? _]%elem_of_intersection. apply elem_of_union. by left. }
        apply set_eq. intros x. split; intros Hx.
        -- assert (x ∈ A ∩ B) as [_ ?]%elem_of_intersection; [|done].
           rewrite Heq. apply elem_of_union. by left.
        -- assert (x ∈ A ∩ B) as [? _]%elem_of_intersection; [|done].
           rewrite Heq. apply elem_of_union. by right.
      * intros [<- _]. f_equal. apply set_eq. intros x.
        rewrite elem_of_intersection, elem_of_union. tauto.
    + rewrite ratio_zero. split.
      * intros Hs. apply leibniz_equiv. by apply size_empty_inv.
      * intros ->. apply size_empty.
Qed.

End similarity.

(** ** The score of a candidate name *)

Section candidate_scores.

Lemma py_max_ge_l (a b : Q) : (a <= py_max a b)%Q.
Proof.
  unfold py_max. destruct (Qle_bool b a) eqn:H; [apply Qle_refl|].
  by apply Qle_bool_false.
Qed.

Lemma py_max_ge_r (a b : Q) : (b <= py_max a b)%Q.
Proof.
  unfold py_max. destruct (Qle_bool b a) eqn:H; [|apply Qle_refl].
  by apply Qle_bool_iff.
Qed.

Lemma boost_pair_ge qt score nt : (score <= boost_pair qt score nt)%Q.
Proof.
  unfold boost_pair.
  set (score1 := if _ || _ then py_max score 0.7 else score).
  assert (score <= score1)%Q as H1.
  { unfold score1. destruct (_ || _); [apply py_max_ge_l|apply Qle_refl]. }
  destruct (_ && _); [|done]. eapply Qle_trans; [exact H1|apply py_max_ge_l].
Qed.

Lemma boost_token_ge name_tokens bound score qt :
  (bound <= score)%Q → (bound <= boost_token name_tokens score qt)%Q.
Proof.
  unfold boost_token. revert score.
  induction name_tokens as [|nt nts IH]; intros score H; simpl; [done|].
  apply IH. eapply Qle_trans; [exact H|apply boost_pair_ge].
Qed.

Lemma boost_tokens_ge name_tokens query_tokens bound score :
  (bound <= score)%Q →
  (bound <= fold_left (boost_token name_tokens) query_tokens score)%Q.
Proof.
  revert score. induction query_tokens as [|qt qts IH]; intros score H; simpl; [done|].
  by apply IH, boost_token_ge.
Qed.

Lemma boost_pair_same w score :
  2 < PyStr.len w → (0.75 <= boost_pair w score w)%Q.
Proof.
  intros Hlen. unfold boost_pair.
  rewrite contains_refl, bool_decide_eq_true_2 by lia. apply py_max_ge_r.
Qed.

Lemma boost_token_shared name_tokens score w :
  w ∈ name_tokens → 2 < PyStr.len w → (0.75 <= boost_token name_tokens score w)%Q.
Proof.
  unfold boost_token. intros Hin Hlen. revert score.
  induction name_tokens as [|nt nts IH]; intros score; simpl; [by apply elem_of_nil in Hin|].
  apply elem_of_cons in Hin as [<-|Hin]; [|by apply IH].
  apply (boost_token_ge nts 0.75 _ w). by apply boost_pair_same.
Qed.

Lemma boost_tokens_shared name_tokens query_tokens score w :
  w ∈ query_tokens → w ∈ name_tokens → 2 < PyStr.len w →
  (0.75 <= fold_left (boost_token name_tokens) query_tokens score)%Q.
Proof.
  intros Hq Hn Hlen. revert score.
  induction query_tokens as [|qt qts IH]; intros score; simpl; [by apply elem_of_nil in Hq|].
  apply elem_of_cons in Hq as [<-|Hq]; [|by apply IH].
  apply boost_tokens_ge. by apply boost_token_shared.
Qed.

Lemma elem_of_word_set w s : w ∈ elements (word_set s) ↔ w ∈ PyStr.split s.
Proof. unfold word_set. by rewrite elem_of_elements, elem_of_list_to_set. Qed.

(** Two names that share a word of more than two characters score 0.75
    or more. *)
Lemma candidate_score_shared query_norm nm w :
  w ∈ PyStr.split query_norm → w ∈ PyStr.split nm → 2 < PyStr.len w →
  (0.75 <= candidate_score query_norm nm)%Q.
Proof.
  intros Hq Hn Hlen. unfold candidate_score.
  apply (boost_tokens_shared _ _ _ w); [by apply elem_of_word_set..|done].
Qed.

Lemma elem_of_query_words w query_norm :
  w ∈ query_words_of query_norm ↔ w ∈ PyStr.split query_norm ∧ 2 < PyStr.len w.
Proof. unfold query_words_of. rewrite list_elem_of_filter. tauto. Qed.

Lemma candidate_stage_fold reg words cands nm :
  nm ∈ fold_left (candidate_step reg) words cands
  ↔ nm ∈ cands ∨ ∃ w, w ∈ words ∧ indexed_under reg w nm.
Proof.
  revert cands; induction words as [|w words IH]; intros cands; simpl.
  - split; [by left|]. intros [?|(? & ?%elem_of_nil & _)]; done.
  - rewrite IH. unfold candidate_step, indexed_under. setoid_rewrite elem_of_cons.
    destruct (word_index reg !! w) as [names|] eqn:Hw.
    + rewrite elem_of_union. split.
      * intros [[?|?]|(w' & ? & ?)]; [by left|right; exists w; eauto|right; eauto].
      * intros [?|(w' & [->|?] & names' & Hw' & ?)]; [by left; left| |right; eauto].
        rewrite Hw in Hw'. injection Hw' as <-. left. by right.
    + split.
      * intros [?|(w' & ? & ?)]; [by left|right; eauto].
      * intros [?|(w' & [->|?] & names' & Hw' & ?)]; [by left| |right; eauto].
        rewrite Hw in Hw'. done.
Qed.

Lemma elem_of_candidates reg query_norm nm :
  nm ∈ elements (candidate_stage reg (query_words_of query_norm))
  ↔ ∃ w, w ∈ PyStr.split query_norm ∧ 2 < PyStr.len w ∧ indexed_under reg w nm.
Proof.
  rewrite elem_of_elements. unfold candidate_stage. rewrite candidate_stage_fold.
  setoid_rewrite elem_of_query_words. split.
  - intros [?%not_elem_of_empty|(w & [? ?] & ?)]; [done|eauto].
  - intros (w & ? & ? & ?). right. eauto.
Qed.

(** Every candidate of the word index scores 0.75 or more. *)
Lemma candidate_score_indexed rows query_norm nm :
  nm ∈ elements (candidate_stage (_load_data rows) (query_words_of query_norm)) →
  (0.75 <= candidate_score query_norm nm)%Q.
Proof.
  intros (w & Hq & Hlen & Hi)%elem_of_candidates.
  apply load_data_word_index in Hi as (_ & Hn & _).
  by apply (candidate_score_shared _ _ w).
Qed.

End candidate_scores.

(** ** What the matcher returns *)

Section search_results.

Lemma bucket_registered rows nm bucket r :
  PyDict.get (name_to_sponsors (_load_data rows)) nm = Some bucket →
  r ∈ bucket → r ∈ sponsors (_load_data rows).
Proof.
  rewrite (load_data_buckets rows nm). unfold records_named.
  destruct (filter _ _) as [|r0 b] eqn:Hf; [done|]. intros [= <-]. rewrite <- Hf.
  by intros [_ ?]%list_elem_of_filter.
Qed.

Lemma first_by_name_subset seen bucket r : r ∈ first_by_name seen bucket → r ∈ bucket.
Proof.
  revert seen; induction bucket as [|r0 bucket IH]; intros seen; simpl; [done|].
  case_decide.
  - intros ?%IH. by right.
  - intros [->|?%IH]%elem_of_cons; [left|by right].
Qed.

Lemma elem_of_slice_to {A : Type} (n : Z) (l : list A) (x : A) : x ∈ slice_to n l → x ∈ l.
Proof.
  unfold slice_to. case_decide;
    intros [i [Hi _]%lookup_take_Some]%list_elem_of_lookup; by eapply list_elem_of_lookup_2.
Qed.

Lemma sorted_desc_take_prefix l n : sorted_desc l → sorted_desc (take n l).
Proof.
  unfold sorted_desc. intros H. revert n.
  induction H as [|x l Hl IH Hx]; intros n; destruct n as [|n]; simpl; try constructor.
  - apply IH.
  - apply Forall_forall. intros y Hy. rewrite Forall_forall in Hx. apply Hx.
    apply list_elem_of_lookup in Hy as [i [Hi _]%lookup_take_Some].
    by eapply list_elem_of_lookup_2.
Qed.

(** What holds of every match that the three scoring stages collect. *)
Lemma unsorted_sound rows query threshold r score :
  (r, score) ∈ unsorted (_load_data rows) query threshold →
  r ∈ sponsors (_load_data rows)
  ∧ (0.75 <= score)%Q ∧ (score <= 1)%Q
  ∧ (score = 1%Q ∨ score = 0.9%Q ∨ score = 0.85%Q ∨ (threshold <= score)%Q).
Proof.
  pose proof (load_data_wf rows) as Hwf. unfold unsorted.
  intros [Hin|[Hin|Hin]%elem_of_app]%elem_of_app.
  - unfold exact_hits, exact_stage in Hin.
    destruct (PyDict.get _ (_normalize query)) as [bucket|] eqn:Hb; simpl in Hin;
      [|by apply elem_of_nil in Hin].
    rewrite exact_fold in Hin. simpl in Hin.
    apply list_elem_of_fmap in Hin as (r' & [= -> ->] & Hr').
    split_and!; [|done|done|by left].
    eapply bucket_registered; [exact Hb|]. by eapply first_by_name_subset.
  - apply elem_of_flat_map in Hin as ([nm sps] & Hitem & Hin).
    apply elem_get_Some in Hitem; [|apply Hwf].
    unfold substring_hits, substring_score in Hin. simpl in Hin.
    case_decide; [by apply elem_of_nil in Hin|].
    destruct (PyStr.contains nm _); [|destruct (_ && _)];
      [| |by apply elem_of_nil in Hin];
      apply list_elem_of_fmap in Hin as (r' & [= -> ->] & Hr');
      (split_and!; [by eapply bucket_registered|done|done|auto]).
  - apply elem_of_flat_map in Hin as (nm & Hnm & Hin).
    unfold word_hits in Hin. case_decide; [by apply elem_of_nil in Hin|].
    destruct (geq _ _) eqn:Hg; [|by apply elem_of_nil in Hin].
    apply list_elem_of_fmap in Hin as (r' & [= -> ->] & Hr').
    destruct (PyDict.get _ nm) as [bucket|] eqn:Hb; simpl in Hr';
      [|by apply elem_of_nil in Hr'].
    split_and!.
    + by eapply bucket_registered.
    + by eapply candidate_score_indexed.
    + apply candidate_score_le_1.
    + do 3 right. unfold geq in Hg. by apply Qle_bool_iff.
Qed.

(** X8. On a loaded registry [search] raises nothing; its result is in the
    order of decreasing scores and, for a [max_results] that is not
    negative, holds at most [max_results] matches. *)
Theorem search_sorted_and_cut rows query threshold max_results :
  ∃ results,
    search (_load_data rows) query threshold max_results = Ok results
    ∧ sorted_desc results
    ∧ ((0 ≤ max_results)%Z → (Z.of_nat (length results) ≤ max_results)%Z).
Proof.
  rewrite search_loaded. eexists. split_and!; [done| |].
  - unfold slice_to. case_decide; apply sorted_desc_take_prefix, sort_desc_sorted.
  - intros Hm. rewrite slice_to_nonneg by done. rewrite length_take. lia.
Qed.

(** X9. Every match that [search] returns is a record of the registry, with
    a score between 0.75 and 1 that is 1.0, 0.9, 0.85 or at least the
    threshold. *)
Theorem search_results_sound rows query threshold max_results :
  ∃ results,
    search (_load_data rows) query threshold max_results = Ok results
    ∧ ∀ r score,
        (r, score) ∈ results →
        r ∈ sponsors (_load_data rows)
        ∧ (0.75 <= score)%Q ∧ (score <= 1)%Q
        ∧ (score = 1%Q ∨ score = 0.9%Q ∨ score = 0.85%Q ∨ (threshold <= score)%Q).
Proof.
  rewrite search_loaded. eexists. split; [done|].
  intros r score Hin. apply elem_of_slice_to in Hin. rewrite elem_of_sort_desc in Hin.
  exact (unsorted_sound _ _ _ _ _ Hin).
Qed.

Lemma word_hits_low_threshold rows query_norm threshold seen nm :
  (threshold <= 0.75)%Q →
  nm ∈ elements (candidate_stage (_load_data rows) (query_words_of query_norm)) →
  word_hits (_load_data rows) query_norm threshold seen nm
  = word_hits (_load_data rows) query_norm 0.75 seen nm.
Proof.
  intros Ht Hnm%candidate_score_indexed. unfold word_hits, geq.
  case_decide; [done|].
  assert (Qle_bool 0.75 (candidate_score query_norm nm) = true) as ->
    by by apply Qle_bool_iff.
  assert (Qle_bool threshold (candidate_score query_norm nm) = true) as ->; [|done].
  apply Qle_bool_iff. eapply Qle_trans; eassumption.
Qed.

(** X10. Lowering the threshold below 0.75 changes nothing: every candidate
    of the word index shares a word with the query and scores 0.75 or
    more. *)
Theorem low_thresholds_alike rows query threshold max_results :
  (threshold <= 0.75)%Q →
  search (_load_data rows) query threshold max_results
  = search (_load_data rows) query 0.75 max_results.
Proof.
  intros Ht. rewrite !search_loaded. do 3 f_equal. unfold unsorted. do 2 f_equal.
  unfold all_word_hits. apply flat_map_ext_elem. intros nm Hnm.
  by apply word_hits_low_threshold.
Qed.

Lemma low_thresholds_alike_witness :
  search (_load_data [barclays_row]) "bank of barclays" 0.3 10
  = search (_load_data [barclays_row]) "bank of barclays" 0.75 10.
Proof.
  apply (low_thresholds_alike [barclays_row] "bank of barclays" 0.3 10). discriminate.
Defined.

(** X11. An indexed name, other than the normalized query, that shares with
    it a word of more than two characters has every record in the ranked
    list with a score of 0.75 or more, for every threshold up to 0.75. *)
Theorem shared_word_recall rows query threshold nm bucket r w :
  PyDict.get (name_to_sponsors (_load_data rows)) nm = Some bucket →
  r ∈ bucket →
  nm ≠ _normalize query →
  w ∈ PyStr.split (_normalize query) →
  w ∈ PyStr.split nm →
  2 < PyStr.len w →
  (threshold <= 0.75)%Q →
  ∃ full score,
    ranked (_load_data rows) query threshold = Ok full
    ∧ (r, score) ∈ full ∧ (0.75 <= score)%Q.
Proof.
  intros Hb Hr Hne Hq Hn Hlen Ht.
  pose proof (load_data_wf rows) as Hwf.
  destruct (substring_score (_normalize query) nm) as [score|] eqn:Hs.
  - destruct (substring_hit_ranked rows query threshold nm bucket r score)
      as (full & Hfull & Hin & _); [done..|].
    exists full, score. split_and!; [done..|].
    unfold substring_score in Hs.
    destruct (PyStr.contains nm _); [by injection Hs as <-|].
    destruct (_ && _); [by injection Hs as <-|done].
  - rewrite ranked_loaded. eexists _, (candidate_score (_normalize query) nm).
    split_and!; [done| |by apply (candidate_score_shared _ _ w)].
    apply elem_of_sort_desc. unfold unsorted. rewrite !elem_of_app. do 2 right.
    apply elem_of_flat_map. exists nm. split.
    + apply elem_of_candidates. exists w. split_and!; [done..|].
      apply load_data_word_index. eauto.
    + unfold word_hits. rewrite decide_False.
      * assert (geq (candidate_score (_normalize query) nm) threshold = true) as ->.
        { unfold geq. apply Qle_bool_iff. eapply Qle_trans; [exact Ht|].
          by apply (candidate_score_shared _ _ w). }
        rewrite Hb. simpl.
        by apply (list_elem_of_fmap_2 (λ sponsor, (sponsor, _))).
      * unfold substring_seen, substring_stage.
        destruct (exact_stage (_load_data rows) (_normalize query)) as [res1 seen1] eqn:H1.
        rewrite substring_fold_seen. intros [Hin|(sps & _ & Hsome)].
        -- eapply (exact_seen_other _ (_normalize query) nm bucket); eauto.
           ++ intros ->. by apply elem_of_nil in Hr.
           ++ unfold exact_seen. by rewrite H1.
        -- rewrite Hs in Hsome. by destruct Hsome.
Qed.

Lemma shared_word_recall_witness :
  ∃ full score,
    ranked (_load_data [barclays_row]) "Bank of Barclays" 0.5 = Ok full
    ∧ (barclays, score) ∈ full ∧ (0.75 <= score)%Q.
Proof.
  apply (shared_word_recall [barclays_row] "Bank of Barclays" 0.5
           "barclays bank plc" [barclays] barclays "bank").
  - reflexivity.
  - left.
  - discriminate.
  - vm_compute. left.
  - vm_compute. right. left.
  - vm_compute. lia.
  - discriminate.
Defined.

End search_results.

(** ** The sponsor check and the verdict of the command line *)

Section sponsor_check.

(** The search for a text that normalizes like the name of a registry
    record puts the first record of the bucket on top, with score 1.0. *)
Lemma search_registered_top rows query threshold r :
  r ∈ sponsors (_load_data rows) →
  _normalize query = _normalize (name r) →
  ∃ r0 rest,
    r0 ∈ sponsors (_load_data rows)
    ∧ _normalize (name r0) = _normalize (name r)
    ∧ sort_desc (unsorted (_load_data rows) query threshold) = (r0, 1%Q) :: rest.
Proof.
  intros Hr Hq. pose proof (load_data_wf rows) as Hwf.
  destruct (wf_sponsors _ Hwf r Hr) as (bucket & Hb & Hin). rewrite <- Hq in Hb.
  destruct bucket as [|r0 bucket]; [by apply elem_of_nil in Hin|].
  exists r0. eexists. split_and!.
  - eapply bucket_registered; [exact Hb|left].
  - rewrite <- Hq. eapply wf_bucket; [exact Hwf|exact Hb|left].
  - unfold unsorted. rewrite (exact_hits_bucket _ _ _ Hb), sort_desc_top.
    + simpl. rewrite decide_False by apply not_elem_of_empty. done.
    + apply Forall_app. split; apply Forall_flat_map; intros x.
      * apply substring_hits_le_1.
      * apply word_hits_le_1.
Qed.

(** X12. A text that normalizes like the name of a registry record is
    confirmed by [is_sponsor] for every threshold up to 1: the answer is a
    record of the registry whose name normalizes alike. *)
Theorem is_sponsor_finds_registered rows company_name threshold r :
  r ∈ sponsors (_load_data rows) →
  _normalize company_name = _normalize (name r) →
  (threshold <= 1)%Q →
  ∃ r0,
    is_sponsor (_load_data rows) company_name threshold = Ok (Some r0)
    ∧ r0 ∈ sponsors (_load_data rows)
    ∧ _normalize (name r0) = _normalize (name r).
Proof.
  intros Hr Hq Ht.
  destruct (search_registered_top rows company_name threshold r Hr Hq)
    as (r0 & rest & Hr0 & Hn & Hs).
  exists r0. split_and!; [|done..].
  unfold is_sponsor. rewrite search_loaded, Hs. simpl.
  unfold geq. by apply Qle_bool_iff in Ht as ->.
Qed.

Lemma is_sponsor_finds_registered_witness :
  ∃ r0,
    is_sponsor (_load_data [barclays_row]) "BARCLAYS BANK, PLC" 0.8 = Ok (Some r0)
    ∧ r0 ∈ sponsors (_load_data [barclays_row])
    ∧ _normalize (name r0) = _normalize (name barclays).
Proof.
  apply (is_sponsor_finds_registered [barclays_row] "BARCLAYS BANK, PLC" 0.8 barclays).
  - vm_compute. left.
  - reflexivity.
  - discriminate.
Defined.

Lemma is_sponsor_answer rows company_name threshold :
  ∃ answer,
    is_sponsor (_load_data rows) company_name threshold = Ok answer
    ∧ ∀ r, answer = Some r → r ∈ sponsors (_load_data rows) ∧ (threshold <= 1)%Q.
Proof.
  unfold is_sponsor. rewrite search_loaded. simpl.
  destruct (slice_to 1 _) as [|[top score] rest] eqn:Hs; simpl; [by eexists|].
  assert ((top, score) ∈ unsorted (_load_data rows) company_name threshold) as Hin.
  { rewrite <- elem_of_sort_desc. apply (elem_of_slice_to 1). rewrite Hs. left. }
  apply unsorted_sound in Hin as (Hreg & _ & Hle & _).
  unfold geq. destruct (Qle_bool threshold score) eqn:Hc; eexists; (split; [done|]).
  - intros r [= <-]. split; [done|]. apply Qle_bool_iff in Hc.
    eapply Qle_trans; eassumption.
  - done.
Qed.

(** X13. [is_sponsor] answers with records of the registry only, and with
    none when the threshold is above 1. *)
Theorem is_sponsor_answers_registered rows company_name threshold :
  ∃ answer,
    is_sponsor (_load_data rows) company_name threshold = Ok answer
    ∧ ∀ r, answer = Some r → r ∈ sponsors (_load_data rows) ∧ (threshold <= 1)%Q.
Proof. apply is_sponsor_answer. Qed.

(** X14. The verdict of the command line on a non-empty result is never
    NOT FOUND: the best match scores 0.75 or more. *)
Theorem report_never_not_found rows company threshold :
  ∃ rep,
    company_report (_load_data rows) company threshold = Ok rep
    ∧ rep ≠ Verdict NotFound.
Proof.
  unfold company_report. rewrite search_loaded. simpl.
  destruct (slice_to 10 _) as [|[top score] rest] eqn:Hs; simpl; [by eexists|].
  assert ((top, score) ∈ unsorted (_load_data rows) company threshold) as Hin.
  { rewrite <- elem_of_sort_desc. apply (elem_of_slice_to 10). rewrite Hs. left. }
  apply unsorted_sound in Hin as (_ & Hge & _).
  eexists. split; [done|]. unfold band_of, geq.
  destruct (Qle_bool 0.8 score); [done|].
  assert (Qle_bool 0.5 score = true) as ->; [|done].
  apply Qle_bool_iff. eapply Qle_trans; [|exact Hge]. discriminate.
Qed.

(** X15. For a text that normalizes like the name of a registry record the
    verdict of the command line is CONFIRMED, whatever the threshold. *)
Theorem report_confirms_registered rows company threshold r :
  r ∈ sponsors (_load_data rows) →
  _normalize company = _normalize (name r) →
  company_report (_load_data rows) company threshold = Ok (Verdict Confirmed).
Proof.
  intros Hr Hq.
  destruct (search_registered_top rows company threshold r Hr Hq)
    as (r0 & rest & _ & _ & Hs).
  unfold company_report. rewrite search_loaded, Hs. done.
Qed.

Lemma report_confirms_registered_witness :
  company_report (_load_data [barclays_row]) "barclays bank plc" 2 = Ok (Verdict Confirmed).
Proof.
  apply (report_confirms_registered [barclays_row] "barclays bank plc" 2 barclays).
  - vm_compute. left.
  - reflexivity.
Defined.

End sponsor_check.

(** ** The deduplicator and the search handler of the API *)

Section dedup_more.

Lemma set_absent {V : Type} (d : PyDict.t V) k v :
  PyDict.get d k = None → PyDict.set d k v = d ++ [(k, v)].
Proof.
  induction d as [|[k' v'] d IH]; simpl; [done|].
  case_decide; [done|]. intros H'. by rewrite IH.
Qed.

Lemma get_app_absent {V : Type} (d : PyDict.t V) k k' v :
  PyDict.get d k' = None → k ≠ k' → PyDict.get (d ++ [(k, v)]) k' = None.
Proof.
  induction d as [|[k0 v0] d IH]; simpl.
  - intros _ Hne. by rewrite decide_False.
  - case_decide; [done|]. auto.
Qed.

(** On matches of distinct company names the loop keeps every match, in
    order. *)
Lemma dedup_fold_distinct l seen :
  NoDup (map (λ m : Match, name m.1) l) →
  (∀ m, m ∈ l → PyDict.get seen (name m.1) = None) →
  fold_left dedup_step l seen = seen ++ map (λ m : Match, (name m.1, m)) l.
Proof.
  revert seen; induction l as [|[sponsor score] l IH]; intros seen; simpl.
  - intros _ _. by rewrite app_nil_r.
  - intros [Hn Hnd]%NoDup_cons Hfresh.
    assert (PyDict.get seen (name sponsor) = None) as Hg
      by (apply (Hfresh (sponsor, score)); left).
    rewrite Hg, set_absent by done.
    rewrite IH; [by rewrite <- app_assoc|done|].
    intros m Hm. apply get_app_absent; [apply Hfresh; by right|].
    intros Heq. apply Hn. rewrite Heq.
    by apply (list_elem_of_fmap_2 (λ m : Match, name m.1)).
Qed.

Lemma sort_desc_sorted_id l : sorted_desc l → sort_desc l = l.
Proof.
  unfold sorted_desc. induction 1 as [|x l Hl IH Hx]; simpl; [done|].
  fold (sort_desc l). rewrite IH. by apply insert_desc_top.
Qed.

Lemma dedup_distinct_sorted l :
  NoDup (map (λ m : Match, name m.1) l) → sorted_desc l → deduplicate_results l = l.
Proof.
  intros Hnd Hs. unfold deduplicate_results.
  rewrite dedup_fold_distinct by done. simpl.
  unfold PyDict.values. rewrite map_map. simpl. rewrite map_id.
  by apply sort_desc_sorted_id.
Qed.

Lemma dedup_results_inv results : dedup_inv (fold_left dedup_step results []) results.
Proof.
  apply (dedup_fold_inv results [] []). split; [constructor|done|].
  by intros m ?%elem_of_nil.
Qed.

Lemma dedup_names_NoDup results :
  NoDup (map (λ m : Match, name m.1) (deduplicate_results results)).
Proof.
  unfold deduplicate_results. rewrite sort_desc_perm.
  erewrite dedup_inv_names by apply dedup_results_inv. apply dedup_results_inv.
Qed.

(** X16. Deduplicating twice is deduplicating once. *)
Theorem deduplicate_idempotent results :
  deduplicate_results (deduplicate_results results) = deduplicate_results results.
Proof.
  apply dedup_distinct_sorted; [apply dedup_names_NoDup|].
  unfold deduplicate_results. apply sort_desc_sorted.
Qed.

(** X17. The deduplicated list has as many matches as the input has
    distinct company names. *)
Theorem deduplicate_counts_names results :
  length (deduplicate_results results)
  = size (list_to_set (map (λ m : Match, name m.1) results) : gset string).
Proof.
  pose proof (dedup_results_inv results) as Hinv.
  unfold deduplicate_results. rewrite length_sort_desc.
  unfold PyDict.values. rewrite length_map, <- (length_map fst).
  fold (PyDict.keys (fold_left dedup_step results [])).
  rewrite <- (size_list_to_set (C:=gset string)) by apply Hinv.
  f_equal. apply set_eq. intros k. rewrite !elem_of_list_to_set. split.
  - intros Hk. destruct (PyDict.get (fold_left dedup_step results []) k) as [m|] eqn:Hg.
    + destruct (dedup_best _ _ Hinv k m Hg) as (<- & Hin & _).
      by apply (list_elem_of_fmap_2 (λ m : Match, name m.1)).
    + by apply get_None_keys in Hg.
  - intros (m & -> & Hin)%list_elem_of_fmap.
    destruct (dedup_all _ _ Hinv m Hin) as [m' Hm'].
    apply get_Some_elem in Hm'. by apply (list_elem_of_fmap_2 fst) in Hm'.
Qed.

(** X18. The matches that the search handler of the API serializes are
    records of the registry with distinct company names, in the order of
    decreasing scores, at most 50 and, for a [limit] that is not negative,
    at most [limit]. *)
Theorem search_endpoint_sound rows company threshold limit :
  ∃ results,
    search_endpoint_results (_load_data rows) company threshold limit = Ok results
    ∧ NoDup (map (λ m : Match, name m.1) results)
    ∧ sorted_desc results
    ∧ length results ≤ 50
    ∧ ((0 ≤ limit)%Z → (Z.of_nat (length results) ≤ limit)%Z)
    ∧ ∀ m, m ∈ results → m.1 ∈ sponsors (_load_data rows).
Proof.
  unfold search_endpoint_results. rewrite search_loaded. simpl.
  set (found := slice_to 50 (sort_desc (unsorted (_load_data rows) company threshold))).
  assert (slice_to limit (deduplicate_results found) `sublist_of` deduplicate_results found)
    as Hsub by (unfold slice_to; case_decide; apply sublist_take).
  eexists. split_and!; [done| | | | |].
  - eapply sublist_NoDup; [apply dedup_names_NoDup|].
    by apply (fmap_sublist (λ m : Match, name m.1)).
  - unfold slice_to. case_decide; apply sorted_desc_take_prefix;
      unfold deduplicate_results; apply sort_desc_sorted.
  - apply sublist_length in Hsub. rewrite Hsub.
    unfold deduplicate_results. rewrite length_sort_desc.
    pose proof (dedup_results_inv found) as Hinv.
    unfold PyDict.values. rewrite length_map, <- (length_map fst).
    fold (PyDict.keys (fold_left dedup_step found [])).
    assert (PyDict.keys (fold_left dedup_step found []) ⊆ map (λ m : Match, name m.1) found)
      as Hkeys.
    { intros k Hk.
      destruct (PyDict.get (fold_left dedup_step found []) k) as [m|] eqn:Hg.
      - destruct (dedup_best _ _ Hinv k m Hg) as (<- & Hin & _).
        by apply (list_elem_of_fmap_2 (λ m : Match, name m.1)).
      - by apply get_None_keys in Hg. }
    assert (length (PyDict.keys (fold_left dedup_step found [])) ≤ length found) as Hle.
    { rewrite <- (length_map (λ m : Match, name m.1) found).
      apply submseteq_length, NoDup_submseteq; [apply Hinv|exact Hkeys]. }
    assert (length found ≤ 50); [|lia].
    unfold found. rewrite slice_to_nonneg by lia. rewrite length_take. lia.
  - intros Hl. rewrite slice_to_nonneg by done. rewrite length_take. lia.
  - intros [r score] Hin. simpl.
    eapply elem_of_sublist in Hin; [|exact Hsub].
    unfold deduplicate_results in Hin. rewrite elem_of_sort_desc in Hin.
    apply elem_of_values in Hin as [k Hin].
    apply elem_get_Some in Hin; [|apply dedup_results_inv].
    destruct (dedup_best _ _ (dedup_results_inv found) k _ Hin) as (_ & Hf & _).
    unfold found in Hf. apply elem_of_slice_to in Hf. rewrite elem_of_sort_desc in Hf.
    by apply unsorted_sound in Hf as (? & _).
Qed.

End dedup_more.


(** ** The counting loops of the statistics *)

Section statistics.

Variable key : Sponsor → string.

Lemma count_step_get counts s k :
  PyDict.get (count_step key counts s) k
  = if decide (key s = k) then Some (default 0 (PyDict.get counts k) + 1)
    else PyDict.get counts k.
Proof.
  unfold count_step. case_decide as Hk.
  - subst k. apply get_set_eq.
  - by apply get_set_ne.
Qed.

Lemma tally_fold_get sps counts k :
  PyDict.get (fold_left (count_step key) sps counts) k
  = match PyDict.get counts k, length (filter (λ s, key s = k) sps) with
    | None, 0 => None
    | None, n => Some n
    | Some c, n => Some (c + n)
    end.
Proof.
  revert counts; induction sps as [|s sps IH]; intros counts; simpl.
  - destruct (PyDict.get counts k); [f_equal; lia|done].
  - rewrite IH, count_step_get, filter_cons. case_decide as Hk; simpl.
    + destruct (PyDict.get counts k); simpl; f_equal; lia.
    + done.
Qed.

Lemma sum_values_set (counts : PyDict.t nat) k :
  sum_list (PyDict.values (PyDict.set counts k (default 0 (PyDict.get counts k) + 1)))
  = sum_list (PyDict.values counts) + 1.
Proof.
  induction counts as [|[k' c] counts IH]; simpl; [done|].
  case_decide; simpl; [lia|]. rewrite IH. lia.
Qed.

Lemma tally_fold_sum sps counts :
  sum_list (PyDict.values (fold_left (count_step key) sps counts))
  = sum_list (PyDict.values counts) + length sps.
Proof.
  revert counts; induction sps as [|s sps IH]; intros counts; simpl; [lia|].
  rewrite IH. unfold count_step. rewrite sum_values_set. lia.
Qed.

(** X19. A counting loop of the statistics files under each key the number
    of records that carry it, files nothing under a key that no record
    carries, and its counts add up to the number of records. *)
Theorem tally_counts_records sps :
  (∀ k, PyDict.get (tally key sps) k
        = match length (filter (λ s, key s = k) sps) with
          | 0 => None
          | n => Some n
          end)
  ∧ sum_list (PyDict.values (tally key sps)) = length sps.
Proof.
  split.
  - intros k. unfold tally. by rewrite tally_fold_get.
  - unfold tally. by rewrite tally_fold_sum.
Qed.

End statistics.

(** ** The regular expressions of the extractor *)

Section regex_facts.

Context {R : Type}.

Lemma backtrack_Some prev s cap (k : Re.cont (R:=R)) n x :
  Re.backtrack prev s cap k n = Some x →
  ∃ prev' s', k prev' s' cap = Some x.
Proof.
  induction n as [|n IH]; simpl; [done|].
  destruct (k _ _ cap) eqn:Hk; [|exact IH]. intros [= <-]. eauto.
Qed.

(** A match reaches its continuation with the group filled as soon as the
    pattern captures, and never with a group emptied. *)
Lemma run_captures r prev s cap (k : Re.cont (R:=R)) x :
  Re.run r prev s cap k = Some x →
  ∃ prev' s' cap',
    k prev' s' cap' = Some x ∧ (captures r = true ∨ is_Some cap → is_Some cap').
Proof.
  revert prev s cap k; induction r as [l|l|c|r1 IH1 r2 IH2|r1 IH1 r2 IH2|r1 IH1|r1 IH1| | |];
    intros prev s cap k; cbn [Re.run captures].
  - destruct (PyStr.prefix_of_chars _ _); [|done]. intros H.
    do 3 eexists. split; [exact H|]. by intros [?|?].
  - destruct (Re.prefix_nocase _ _); [|done]. intros H.
    do 3 eexists. split; [exact H|]. by intros [?|?].
  - intros (prev' & s' & H)%backtrack_Some.
    do 3 eexists. split; [exact H|]. by intros [?|?].
  - intros (p1 & s1 & c1 & H1 & Hc1)%IH1.
    apply IH2 in H1 as (p2 & s2 & c2 & H2 & Hc2).
    do 3 eexists. split; [exact H2|].
    intros [[?|?]%orb_true_iff|?]; auto.
  - destruct (Re.run r1 prev s cap k) eqn:Hr1.
    + intros [= <-]. apply IH1 in Hr1 as (p1 & s1 & c1 & H1 & Hc1).
      do 3 eexists. split; [exact H1|].
      intros [[? _]%andb_true_iff|?]; auto.
    + intros (p2 & s2 & c2 & H2 & Hc2)%IH2.
      do 3 eexists. split; [exact H2|].
      intros [[_ ?]%andb_true_iff|?]; auto.
  - destruct (Re.run r1 prev s cap k) eqn:Hr1.
    + intros [= <-]. apply IH1 in Hr1 as (p1 & s1 & c1 & H1 & Hc1).
      do 3 eexists. split; [exact H1|]. intros [?|?]; [done|auto].
    + intros H. do 3 eexists. split; [exact H|]. by intros [?|?].
  - intros (p1 & s1 & c1 & H1 & _)%IH1.
    do 3 eexists. split; [exact H1|]. eauto.
  - destruct prev; [done|]. intros H.
    do 3 eexists. split; [exact H|]. by intros [?|?].
  - destruct (bool_decide _); [|done]. intros H.
    do 3 eexists. split; [exact H|]. by intros [?|?].
  - destruct (xorb _ _); [|done]. intros H.
    do 3 eexists. split; [exact H|]. by intros [?|?].
Qed.

End regex_facts.

Section extractor_more.

Variable check : string → bool.

Lemma match_here_captures r prev s m :
  captures r = true → Re.match_here r prev s = Some m → is_Some (Re.group1 m).
Proof.
  intros Hc (p & s' & cap & [= <-] & Hcap)%run_captures. simpl. auto.
Qed.

Lemma search_from_captures r prev s m :
  captures r = true → Re.search_from r prev s = Some m → is_Some (Re.group1 m).
Proof.
  intros Hc. revert prev; induction s as [|c s IH]; intros prev; simpl.
  - destruct (Re.match_here r prev []) eqn:Hm; [|done].
    intros [= <-]. by eapply match_here_captures.
  - destruct (Re.match_here r prev (c :: s)) eqn:Hm.
    + intros [= <-]. by eapply match_here_captures.
    + apply IH.
Qed.

Lemma cleaned_group_ok m hyphens :
  is_Some (Re.group1 m) → ∃ cleaned, cleaned_group m hyphens = Ok cleaned.
Proof.
  intros [g Hg]. unfold cleaned_group, group. rewrite Hg. simpl. eauto.
Qed.

Lemma pattern_stage_ok patterns url_lower :
  Forall (λ p : Re.regex * string, captures p.1 = true) patterns →
  ∃ answer, pattern_stage patterns url_lower = Ok answer.
Proof.
  induction 1 as [|[pattern source] patterns Hc _ IH]; simpl; [eauto|].
  destruct (Re.search pattern url_lower) as [m|] eqn:Hm; [|exact IH].
  apply search_from_captures in Hm; [|done].
  destruct (cleaned_group_ok m true Hm) as [[c|] ->]; cbn [mbind outcome_bind]; eauto.
Qed.

Lemma subdomain_stage_ok domain : ∃ answer, subdomain_stage domain = Ok answer.
Proof.
  unfold subdomain_stage. destruct (Re.rmatch _ _) as [m|] eqn:Hm; [|eauto].
  apply cleaned_group_ok. by eapply (match_here_captures subdomain_pattern).
Qed.

Lemma urlparse_raises_ValueError url e :
  urlparse_netloc check url = Raises e → e = ValueError.
Proof.
  unfold urlparse_netloc. destruct (bool_decide _); [|done].
  destruct (_ || _); [by intros [= <-]|].
  destruct (_ && _); [by intros [= <-]|done].
Qed.

(** The extractor raises exactly when [urlparse] does. *)
Lemma extract_raises_iff url e :
  extract_company_from_url check url = Raises e ↔ urlparse_netloc check url = Raises e.
Proof.
  unfold extract_company_from_url.
  destruct (urlparse_netloc check url) as [netloc|e']; cbn [mbind outcome_bind];
    [|split; intros [= ->]; done].
  split; [|done].
  destruct (known_company _); [done|].
  destruct (pattern_stage_ok url_patterns (PyStr.lower url)) as [[c|] ->];
    [repeat constructor| |]; cbn [mbind outcome_bind]; [done|].
  destruct (subdomain_stage_ok (PyStr.lower netloc)) as [[c|] ->];
    cbn [mbind outcome_bind]; done.
Qed.

(** X20. The only exception of [extract_company_from_url] is the
    [ValueError] of [urlparse], raised exactly when [urlparse] raises it: no
    pattern matches without its group, and no later step fails. *)
Theorem extract_raises_with_urlparse url :
  ∀ e, (extract_company_from_url check url = Raises e
        ↔ urlparse_netloc check url = Raises e)
       ∧ (extract_company_from_url check url = Raises e → e = ValueError).
Proof.
  intros e. split; [apply extract_raises_iff|].
  intros H%extract_raises_iff. by eapply urlparse_raises_ValueError.
Qed.

Lemma lower_char_not_upper c : PyStr.is_upper (PyStr.lower_char c) = false.
Proof. destruct c as [[] [] [] [] [] [] [] []]; reflexivity. Qed.

Lemma prefix_upper_false l s :
  existsb PyStr.is_upper l = true →
  Forall (λ c, PyStr.is_upper c = false) s →
  PyStr.prefix_of_chars l s = false.
Proof.
  revert s; induction l as [|x l IH]; intros s; simpl; [done|].
  intros Hl Hs. destruct s as [|y s]; [done|].
  apply Forall_cons in Hs as [Hy Hs].
  destruct (bool_decide (x = y)) eqn:Hxy; [|done]. simpl.
  apply bool_decide_eq_true in Hxy as ->. rewrite Hy in Hl. simpl in Hl. by apply IH.
Qed.

Lemma glassdoor_match_here prev s :
  Forall (λ c, PyStr.is_upper c = false) s →
  Re.match_here glassdoor_pattern prev s = None.
Proof.
  intros Hs. unfold Re.match_here, glassdoor_pattern. cbn [Re.run].
  destruct (PyStr.prefix_of_chars (PyStr.chars "glassdoor.") s); [|done].
  rewrite !(prefix_upper_false (PyStr.chars "/Overview/Working-at-"))
    by (done || by repeat apply Forall_drop).
  by repeat destruct (PyStr.prefix_of_chars _ _).
Qed.

Lemma glassdoor_search_from prev s :
  Forall (λ c, PyStr.is_upper c = false) s →
  Re.search_from glassdoor_pattern prev s = None.
Proof.
  revert prev; induction s as [|c s IH]; intros prev Hs; cbn [Re.search_from];
    rewrite glassdoor_match_here by done; [done|].
  apply IH. by apply Forall_cons in Hs as [_ ?].
Qed.

(** X21. The Glassdoor rule never fires: its pattern holds capital letters
    and is searched in the URL put in lower case. *)
Theorem glassdoor_rule_never_matches (url : string) :
  Re.search glassdoor_pattern (PyStr.lower url) = None.
Proof.
  unfold Re.search, PyStr.lower. rewrite chars_str. apply glassdoor_search_from.
  apply Forall_forall. intros c (c' & -> & _)%list_elem_of_fmap.
  apply lower_char_not_upper.
Qed.

End extractor_more.


(** ** The cleaning of an extracted name *)

Section cleaning.

Lemma sub_from_sublist r skip prev s : Re.sub_from r skip prev s `sublist_of` s.
Proof.
  revert skip prev; induction s as [|c s IH]; intros skip prev; simpl; [done|].
  destruct skip as [|n]; [|by apply sublist_cons].
  destruct (Re.match_here r prev (c :: s)) as [m|].
  - destruct (S (length s) - length (Re.after m));
      [by apply sublist_skip|by apply sublist_cons].
  - by apply sublist_skip.
Qed.

Lemma lstrip_sublist p l : PyStr.lstrip_with p l `sublist_of` l.
Proof.
  induction l as [|c l IH]; simpl; [done|]. destruct (p c); [by apply sublist_cons|done].
Qed.

Lemma rstrip_sublist p l : PyStr.rstrip_with p l `sublist_of` l.
Proof.
  induction l as [|c l IH]; simpl; [done|].
  destruct (PyStr.rstrip_with p l) as [|c' r].
  - destruct (p c); [apply sublist_nil_l|]. apply sublist_skip, sublist_nil_l.
  - by apply sublist_skip.
Qed.

Lemma strip_noise_word_sublist nm word :
  PyStr.chars (strip_noise_word nm word) `sublist_of` PyStr.chars nm.
Proof.
  unfold strip_noise_word, Re.sub_empty. rewrite chars_str. apply sub_from_sublist.
Qed.

Lemma strip_noise_words_sublist words nm :
  PyStr.chars (fold_left strip_noise_word words nm) `sublist_of` PyStr.chars nm.
Proof.
  revert nm; induction words as [|word words IH]; intros nm; simpl; [done|].
  etrans; [apply IH|apply strip_noise_word_sublist].
Qed.

Lemma strip_clear s :
  (∀ c, head (PyStr.chars (PyStr.strip s)) = Some c → PyStr.isspace c = false)
  ∧ (∀ c, last (PyStr.chars (PyStr.strip s)) = Some c → PyStr.isspace c = false).
Proof.
  unfold PyStr.strip. rewrite chars_str. unfold PyStr.strip_with. split; intros c.
  - pose proof (rstrip_starts_clear PyStr.isspace _
                  (lstrip_starts_clear PyStr.isspace (PyStr.chars s))) as H.
    destruct (PyStr.rstrip_with _ _) as [|c0 l]; simpl; [done|].
    intros [= <-]. exact H.
  - apply rstrip_ends_clear.
Qed.

Lemma clean_company_name_result nm cleaned :
  _clean_company_name nm = Some cleaned →
  PyStr.chars cleaned `sublist_of` PyStr.chars nm ∧ well_formed_name cleaned.
Proof.
  unfold _clean_company_name. case_decide; [done|]. case_decide as Hlen; [done|].
  destruct (existsb _ _) eqn:Halpha; cbn [negb]; [|done].
  intros [= <-]. split.
  - etrans; [|apply (strip_noise_words_sublist noise_words)].
    unfold PyStr.strip. rewrite chars_str. unfold PyStr.strip_with.
    etrans; [apply rstrip_sublist|apply lstrip_sublist].
  - split_and!; [by apply Nat.nlt_ge|done|apply strip_clear..].
Qed.

(** X22. A name that passes the cleaning is the input with characters
    deleted, it has two characters or more, a letter among them, and no
    whitespace at either end. *)
Theorem clean_company_name_deletes nm cleaned :
  _clean_company_name nm = Some cleaned →
  PyStr.chars cleaned `sublist_of` PyStr.chars nm ∧ well_formed_name cleaned.
Proof. apply clean_company_name_result. Qed.

Lemma clean_company_name_deletes_witness :
  PyStr.chars "Acme Widgets" `sublist_of` PyStr.chars "Acme Widgets Ltd"
  ∧ well_formed_name "Acme Widgets".
Proof.
  apply (clean_company_name_deletes "Acme Widgets Ltd" "Acme Widgets"). reflexivity.
Defined.

Lemma existsb_sublist {A : Type} (f : A → bool) (l1 l2 : list A) :
  l1 `sublist_of` l2 → existsb f l1 = true → existsb f l2 = true.
Proof.
  intros Hsub (x & Hx%list_elem_of_In & Hf)%existsb_exists.
  apply existsb_exists. exists x. split; [|done].
  apply list_elem_of_In. by eapply elem_of_sublist.
Qed.

(** X23. A name without any letter is rejected by the cleaning. *)
Theorem clean_company_name_needs_letter nm :
  existsb PyStr.isalpha (PyStr.chars nm) = false → _clean_company_name nm = None.
Proof.
  intros Hno. destruct (_clean_company_name nm) as [cleaned|] eqn:Hc; [|done].
  apply clean_company_name_result in Hc as (Hsub & _ & Halpha & _).
  apply (existsb_sublist _ _ _ Hsub) in Halpha. congruence.
Qed.

Lemma clean_company_name_needs_letter_witness : _clean_company_name "2024 & 3" = None.
Proof. apply (clean_company_name_needs_letter "2024 & 3"). reflexivity. Defined.

End cleaning.

(** ** What the extractor returns, and the URL handler of the API *)

Section extractor_results.

Variable check : string → bool.

Lemma cleaned_group_result m hyphens cleaned :
  cleaned_group m hyphens = Ok (Some cleaned) → well_formed_name cleaned.
Proof.
  unfold cleaned_group. destruct (group m); [|done].
  intros [= H]. by apply clean_company_name_result in H as [_ ?].
Qed.

Lemma pattern_stage_result patterns url_lower cleaned :
  pattern_stage patterns url_lower = Ok (Some cleaned) → well_formed_name cleaned.
Proof.
  induction patterns as [|[pattern source] patterns IH]; simpl; [done|].
  destruct (Re.search pattern url_lower) as [m|]; [|done].
  destruct (cleaned_group m true) as [[c|]|e] eqn:Hc; cbn [mbind outcome_bind]; [|done..].
  intros [= ->]. by eapply cleaned_group_result.
Qed.

(** X24. A company name returned by [extract_company_from_url] is a company
    of the known-domain table or a name that has passed the cleaning: two
    characters or more, a letter among them, no whitespace at either
    end. *)
Theorem extracted_name_well_formed url company :
  extract_company_from_url check url = Ok (Some company) →
  company ∈ PyDict.values KNOWN_COMPANY_DOMAINS ∨ well_formed_name company.
Proof.
  unfold extract_company_from_url.
  destruct (urlparse_netloc check url) as [netloc|e]; cbn [mbind outcome_bind]; [|done].
  destruct (known_company (PyStr.lower netloc)) as [c|] eqn:Hk.
  - intros [= ->]. left. exact (known_company_in_table KNOWN_COMPANY_DOMAINS _ _ Hk).
  - destruct (pattern_stage url_patterns (PyStr.lower url)) as [[c|]|e] eqn:Hp;
      cbn [mbind outcome_bind]; [| |done].
    + intros [= ->]. right. by eapply pattern_stage_result.
    + destruct (subdomain_stage (PyStr.lower netloc)) as [[c|]|e] eqn:Hs;
        cbn [mbind outcome_bind]; [| |done].
      * intros [= ->]. right. unfold subdomain_stage in Hs.
        destruct (Re.rmatch _ _); [|done]. by eapply cleaned_group_result.
      * unfold refusal_stage. by destruct (existsb _ _).
Qed.

(** X25. The URL handler of the API, on the body of the request. A body
    that is an object without the key [url] gets the answer that a URL is
    required. When the value of [url] is no string the handler raises
    [AttributeError]. When it is a string the handler raises exactly when
    [urlparse] does; when it then answers with a company, that is the
    company extracted from the URL, and the sponsor details it reports are
    a record of the registry with the links of that record. A body that is
    no object gets the answer that a URL is required or raises [TypeError].
    The handler never raises [KeyError]. *)
Theorem check_url_sound rows data :
  (∀ members,
     data = JObj members → PyDict.get members "url" = None →
     check_url check (_load_data rows) data = Ok UrlRequired)
  ∧ (∀ members v,
       data = JObj members → PyDict.get members "url" = Some v →
       (∀ url, v ≠ JStr url) →
       check_url check (_load_data rows) data = Raises AttributeError)
  ∧ (∀ members url,
       data = JObj members → PyDict.get members "url" = Some (JStr url) →
       (∀ e, check_url check (_load_data rows) data = Raises e
             ↔ urlparse_netloc check url = Raises e)
       ∧ ∀ company details,
           check_url check (_load_data rows) data = Ok (Extracted company details) →
           extract_company_from_url check url = Ok (Some company)
           ∧ ∀ r links,
               details = Some (r, links) →
               r ∈ sponsors (_load_data rows)
               ∧ links = generate_external_links (name r) (Some (city r)) (Some (county r)))
  ∧ ((∀ members, data ≠ JObj members) →
     check_url check (_load_data rows) data = Ok UrlRequired
     ∨ check_url check (_load_data rows) data = Raises TypeError)
  ∧ check_url check (_load_data rows) data ≠ Raises KeyError.
Proof.
  assert (∀ members v,
            PyDict.get members "url" = Some v →
            check_url check (_load_data rows) (JObj members)
            = (company ←
                 match v with
                 | JStr url => extract_company_from_url check url
                 | _ => Raises AttributeError
                 end;
               match company with
               | None => Ok NotExtracted
               | Some company =>
                   if decide (company = "") then Ok NotExtracted
                   else
                     sponsor ← is_sponsor (_load_data rows) company 0.8;
                     Ok (Extracted company
                           (match sponsor with
                            | Some sponsor =>
                                Some (sponsor,
                                      generate_external_links (name sponsor)
                                        (Some (city sponsor)) (Some (county sponsor)))
                            | None => None
                            end))
               end)) as Hobj.
  { intros members v Hv. unfold check_url.
    destruct members as [|member members]; [done|].
    cbn [truthy negb json_contains json_item mbind outcome_bind].
    unfold PyDict.has, PyDict.item. rewrite Hv. reflexivity. }
  assert (∀ members, PyDict.get members "url" = None →
            check_url check (_load_data rows) (JObj members) = Ok UrlRequired) as Hnone.
  { intros members Hv. unfold check_url.
    destruct members as [|member members]; [done|].
    cbn [truthy negb json_contains mbind outcome_bind].
    unfold PyDict.has. rewrite Hv. reflexivity. }
  assert (∀ url e,
            (company ← extract_company_from_url check url;
             match company with
             | None => Ok NotExtracted
             | Some company =>
                 if decide (company = "") then Ok NotExtracted
                 else
                   sponsor ← is_sponsor (_load_data rows) company 0.8;
                   Ok (Extracted company
                         (match sponsor with
                          | Some sponsor =>
                              Some (sponsor,
                                    generate_external_links (name sponsor)
                                      (Some (city sponsor)) (Some (county sponsor)))
                          | None => None
                          end))
             end) = Raises e
            ↔ urlparse_netloc check url = Raises e) as Htext.
  { intros url e. rewrite <- extract_raises_iff.
    destruct (extract_company_from_url check url) as [[company|]|e'];
      cbn [mbind outcome_bind]; [| |split; intros [= ->]; done].
    - case_decide; [split; intros [=]|].
      destruct (is_sponsor_answer rows company 0.8) as (answer & -> & _).
      cbn [mbind outcome_bind]. split; intros [=].
    - split; intros [=]. }
  split_and!.
  - intros members -> Hv. by apply Hnone.
  - intros members v -> Hv Hns. rewrite (Hobj _ _ Hv).
    destruct v; try reflexivity. by destruct (Hns s).
  - intros members url -> Hv. rewrite (Hobj _ _ Hv). split; [apply Htext|].
    intros company details.
    destruct (extract_company_from_url check url) as [[company'|]|e'];
      cbn [mbind outcome_bind]; [|done..].
    case_decide; [done|].
    destruct (is_sponsor_answer rows company' 0.8) as (answer' & -> & Hreg).
    cbn [mbind outcome_bind]. intros [= -> <-]. split; [done|].
    intros r links. destruct answer' as [r'|]; [|done].
    intros [= <- <-]. split; [|done]. by apply Hreg.
  - intros Hno. unfold check_url.
    destruct data as [|b|n|f|s|items|members]; [| | | | | |by destruct (Hno members)].
    + by left.
    + destruct b; [by right|by left].
    + cbn [truthy]. destruct (n =? 0)%Z; [by left|by right].
    + destruct f; [by left|by right..].
    + cbn [truthy]. case_bool_decide; cbn [negb]; [by left|].
      cbn [json_contains mbind outcome_bind].
      destruct (PyStr.contains s "url"); [by right|by left].
    + destruct items as [|item items]; [by left|].
      cbn [truthy negb json_contains mbind outcome_bind].
      destruct (existsb _ _); [by right|by left].
  - destruct data as [|b|n|f|s|items|members].
    + done.
    + by destruct b.
    + unfold check_url. cbn [truthy]. by destruct (n =? 0)%Z.
    + by destruct f.
    + unfold check_url. cbn [truthy]. case_bool_decide; cbn [negb]; [done|].
      cbn [json_contains mbind outcome_bind]. by destruct (PyStr.contains s "url").
    + unfold check_url. destruct items as [|item items]; [done|].
      cbn [truthy negb json_contains mbind outcome_bind]. by destruct (existsb _ _).
    + destruct (PyDict.get members "url") as [v|] eqn:Hv.
      * rewrite (Hobj _ _ Hv). destruct v as [| | | |url| |]; try done.
        intros Hk%Htext. by apply urlparse_raises_ValueError in Hk.
      * by rewrite Hnone.
Qed.

End extractor_results.

Lemma extracted_name_well_formed_witness :
  "Acme Widgets" ∈ PyDict.values KNOWN_COMPANY_DOMAINS ∨ well_formed_name "Acme Widgets".
Proof.
  apply (extracted_name_well_formed (λ _, true)
           "https://www.linkedin.com/company/acme-widgets-ltd/jobs" "Acme Widgets").
  vm_compute. reflexivity.
Defined.

(** ** The links of [generate_external_links] *)

Lemma chars_append (a b : string) :
  PyStr.chars (a +:+ b) = PyStr.chars a ++ PyStr.chars b.
Proof.
  induction a as [|c a IH]; [done|].
  unfold PyStr.chars in *. simpl. f_equal. exact IH.
Qed.

Lemma quote_char_url c : forallb url_char (quote_char c) = true.
Proof. destruct c as [[] [] [] [] [] [] [] []]; vm_compute; reflexivity. Qed.

Lemma quote_url s : forallb url_char (PyStr.chars (quote s)) = true.
Proof.
  unfold quote. rewrite chars_str.
  induction (PyStr.chars s) as [|c l IH]; [done|].
  cbn [flat_map]. by rewrite forallb_app, quote_char_url, IH.
Qed.

(** X26. Every link that [generate_external_links] returns (every entry but
    [source] and [location_used]) starts with [https://] and is made only of
    unreserved characters and of the delimiters [: / ? = & % +], whatever the
    company name and the location hold: spaces, quotes, angle brackets and
    the like never reach a link. *)
Theorem links_are_urls company_name city county :
  Forall (λ entry,
            entry.1 = "source" ∨ entry.1 = "location_used"
            ∨ (PyStr.startswith entry.2 "https://" = true
               ∧ forallb url_char (PyStr.chars entry.2) = true))
         (generate_external_links company_name city county).
Proof.
  unfold generate_external_links.
  destruct (decide (join_comma (location_part city ++ location_part county) = ""));
    repeat apply Forall_cons_2; try apply Forall_nil_2; cbn [fst snd];
    try (by left); try (by right; left);
    right; right;
    (split; [reflexivity|rewrite ?chars_append, ?forallb_app, ?quote_url; reflexivity]).
Qed.

Lemma quoted_head_quote_char c l : quoted_head (quote_char c ++ l) = Some c.
Proof. destruct c as [[] [] [] [] [] [] [] []]; vm_compute; reflexivity. Qed.

Lemma quote_char_head c d l l' :
  quote_char c ++ l = quote_char d ++ l' → c = d ∧ l = l'.
Proof.
  intros H. assert (c = d) as ->.
  { apply (f_equal quoted_head) in H. rewrite !quoted_head_quote_char in H. congruence. }
  split; [done|]. by apply app_inv_head in H.
Qed.

Lemma quote_chars_inj l1 l2 :
  flat_map quote_char l1 = flat_map quote_char l2 → l1 = l2.
Proof.
  revert l2. induction l1 as [|c l1 IH]; intros [|d l2] H; [done| | |].
  - apply (f_equal quoted_head) in H. cbn [flat_map] in H.
    rewrite quoted_head_quote_char in H. done.
  - apply (f_equal quoted_head) in H. cbn [flat_map] in H.
    rewrite quoted_head_quote_char in H. done.
  - cbn [flat_map] in H. apply quote_char_head in H as [-> H]. f_equal. by apply IH.
Qed.

Lemma quote_inj s t : quote s = quote t → s = t.
Proof.
  unfold quote. intros H. apply (f_equal PyStr.chars) in H. rewrite !chars_str in H.
  apply quote_chars_inj in H. rewrite <- (str_chars s), <- (str_chars t). by rewrite H.
Qed.

(** X27. For the same location, [generate_external_links] returns the same
    links for two company names only when the names are the same string:
    the percent-encoding loses nothing of the name. *)
Theorem links_tell_companies_apart company_name company_name' city county :
  generate_external_links company_name city county
  = generate_external_links company_name' city county
  ↔ company_name = company_name'.
Proof.
  split; [|by intros ->].
  unfold generate_external_links. intros H.
  assert (Hl := f_equal (λ links : PyDict.t string, links !! 3) H).
  cbv beta zeta in Hl. cbn [lookup list_lookup] in Hl. injection Hl as Hl.
  apply (f_equal PyStr.chars) in Hl. rewrite !chars_append in Hl.
  apply app_inv_head in Hl.
  apply quote_inj. by rewrite <- (str_chars (quote _)), Hl, str_chars.
Qed.

Lemma quote_unreserved s :
  forallb unreserved (PyStr.chars s) = true → quote s = s.
Proof.
  unfold quote. intros H. rewrite <- (str_chars s) at 2. f_equal.
  induction (PyStr.chars s) as [|c l IH]; [done|].
  cbn [forallb] in H. apply andb_prop in H as [Hc Hl].
  cbn [flat_map]. rewrite (IH Hl). unfold quote_char.
  unfold unreserved in Hc. by rewrite Hc.
Qed.

(** X28. A company name made only of letters, digits and the characters
    [_ . - ~ /] is put into the links as it is: without a location, the
    Indeed company link is the fixed address followed by the name itself
    and the Reed link is the name between the fixed address and [-jobs]. *)
Theorem plain_name_kept_in_links company_name :
  forallb unreserved (PyStr.chars company_name) = true →
  PyDict.get (generate_external_links company_name None None) "indeed_company"
  = Some ("https://uk.indeed.com/cmp/" +:+ company_name)
  ∧ PyDict.get (generate_external_links company_name None None) "reed"
    = Some ("https://www.reed.co.uk/jobs/" +:+ company_name +:+ "-jobs").
Proof.
  intros H. unfold generate_external_links. cbv zeta.
  rewrite (quote_unreserved _ H). split; reflexivity.
Qed.

Lemma plain_name_kept_in_links_witness :
  PyDict.get (generate_external_links "Tesco-Stores" None None) "indeed_company"
  = Some "https://uk.indeed.com/cmp/Tesco-Stores"
  ∧ PyDict.get (generate_external_links "Tesco-Stores" None None) "reed"
    = Some "https://www.reed.co.uk/jobs/Tesco-Stores-jobs".
Proof.
  apply (plain_name_kept_in_links "Tesco-Stores"). vm_compute. reflexivity.
Defined.
